(** * Rolling Auto-ARIMA forecast: a shallow embedding of
      [arbitragelab/auto_arima/arima_predict.py]

    The module has one function, [get_trend_order], and one class,
    [AutoARIMAForecast], with the methods [get_best_arima_model] (the fit)
    and [predict] (the rolling forecast).  Everything statistical is done by
    the collaborators of pmdarima ([ADFTest.should_diff], [auto_arima] and
    the fitted model's [fit_predict] and [predict]); the module itself is
    orchestration: which series is handed to which collaborator, when, and
    what is stored.

    The embedding follows the pandas the module was written for (before 2.0,
    where [Series.append] exists):
    - a pandas [Series] of floats is a list of (label, value) pairs, the
      values being IEEE binary64 numbers (Rocq's primitive floats), so that
      [diff], NaN and [dropna] are the real ones;
    - pandas objects live in a heap of series, because the module copies
      ([y_train.copy()]) and concatenates ([append]) precisely in order not
      to share them;
    - the collaborators are the variables of the section: functions of the
      values they are given that either return or raise;
    - every call of a collaborator is logged, with what it received and what
      came back, in a trace: the statements about what is passed to the
      fitter and how often are statements about that trace;
    - [get_trend_order] loops without a bound, so it runs on fuel and
      [Diverge] is the outcome of a run that was cut. *)

From Stdlib Require Import ZArith Lia PrimFloat.
From stdpp Require Import base list.

Local Open Scope Z_scope.

(** ** pandas series as values *)

Abbreviation Series := (list (Z * float)).

Definition index (s : Series) : list Z := s.*1.

(** [s.shape[0]] *)
Definition shape0 (s : Series) : Z := Z.of_nat (length s).

(** A bound of a Python slice, resolved against a length: a negative bound
    counts from the end, and the result is clipped to [0, len]. *)
Definition slice_bound (len k : Z) : nat :=
  Z.to_nat (Z.min len (Z.max 0 (if k <? 0 then len + k else k))).

(** [s.iloc[start:]] *)
Definition iloc_from (start : Z) (s : Series) : Series :=
  drop (slice_bound (shape0 s) start) s.

(** [s.iloc[:stop]] *)
Definition iloc_to (stop : Z) (s : Series) : Series :=
  take (slice_bound (shape0 s) stop) s.

(** [s.append(other)]: a new series, [s] followed by [other]. *)
Definition append (s other : Series) : Series := s ++ other.

Fixpoint diff_from (prev : float) (s : Series) : Series :=
  match s with
  | [] => []
  | (t, x) :: rest => (t, PrimFloat.sub x prev) :: diff_from x rest
  end.

(** [s.diff()]: NaN at the first label, then each value minus the one
    before it. *)
Definition diff (s : Series) : Series :=
  match s with
  | [] => []
  | (t, x) :: rest => (t, PrimFloat.nan) :: diff_from x rest
  end.

(** [s.dropna()] *)
Definition dropna (s : Series) : Series :=
  List.filter (fun e => negb (PrimFloat.is_nan e.2)) s.

(** [pd.Series(index=ix, dtype=np.float)]: NaN at every label. *)
Definition nan_series (ix : list Z) : Series :=
  (fun t => (t, PrimFloat.nan)) <$> ix.

(** [p.loc[label] = v]: every entry carrying the label is overwritten; a
    label the index does not have is added at the end. *)
Definition loc_set (label : Z) (v : float) (p : Series) : Series :=
  if existsb (Z.eqb label) (index p)
  then (fun e => if Z.eqb e.1 label then (e.1, v) else e) <$> p
  else p ++ [(label, v)].

(** [range(a, b)] *)
Definition range (a b : Z) : list Z :=
  (fun j => a + Z.of_nat j) <$> seq 0 (Z.to_nat (b - a)).

(** The last [w] entries of a list, all of it when it has fewer. *)
Definition last_n {A} (w : nat) (l : list A) : list A :=
  drop (length l - w)%nat l.

(** ** Exceptions and outcomes *)

Inductive exn :=
| AttributeError          (* an attribute of [None] *)
| IndexError              (* a position outside a sequence *)
| BadReference            (* a location the heap does not have; no Python
                             reference dangles, so no run reaches it *)
| LibraryError (code : Z) (* whatever a collaborator raises *).

Inductive outcome (A : Type) :=
| Ok (a : A)
| Raise (e : exn)
| Diverge.
Arguments Ok {A} a.
Arguments Raise {A} e.
Arguments Diverge {A}.

(** [a[i]] on a sequence, Python's way: a negative position counts from the
    end. *)
Definition getitem {A} (i : Z) (l : list A) : exn + A :=
  let j := if i <? 0 then Z.of_nat (length l) + i else i in
  match (if j <? 0 then None else l !! Z.to_nat j) with
  | Some a => inr a
  | None => inl IndexError
  end.

(** ** The calls that are logged *)

Inductive event :=
| EvDiff                  (* one [Series.diff()] was performed *)
| EvShouldDiff (level : float) (x : Series) (r : exn + float * bool)
| EvAutoArima (y : Series) (d start_p start_q max_p max_q max_order : Z)
    (trace : bool) (failure : option exn)
| EvFitPredict (x : Series) (n_periods : Z) (r : exn + list float)
| EvPredict (n_periods : Z) (r : exn + list float).

Definition is_refit (ev : event) : bool :=
  match ev with EvFitPredict _ _ _ => true | _ => false end.

Definition is_diff (ev : event) : bool :=
  match ev with EvDiff => true | _ => false end.

Definition is_auto_arima (ev : event) : bool :=
  match ev with EvAutoArima _ _ _ _ _ _ _ _ _ => true | _ => false end.

Definition is_test (ev : event) : bool :=
  match ev with EvShouldDiff _ _ _ => true | _ => false end.

(** A call of the model that returned an array without a forecast in it. *)
Definition returned_empty (ev : event) : bool :=
  match ev with
  | EvFitPredict _ _ (inr []) | EvPredict _ (inr []) => true
  | _ => false
  end.

(** A location of the heap of series. *)
Abbreviation loc := nat (only parsing).

(** [ADFTest(alpha=0.05)]: the binary64 number that [0.05] denotes. *)
Definition alpha : float := 0x1.999999999999ap-5%float.

(** ** An instance of the collaborators

    Stand-ins for pmdarima, simple enough to run: the test wants three
    points and finds a series stationary when its first and last values
    agree; the model remembers the last value it was fit on and forecasts
    it; a refit fails on a series of [limit] points or more. *)

Module Toy.

Definition Model : Type := float.

Definition last_value (s : Series) : float :=
  match last s with
  | Some e => e.2
  | None => PrimFloat.nan
  end.

Definition should_diff (level : float) (s : Series) : exn + float * bool :=
  match s with
  | [] | [_] | [_; _] => inl (LibraryError 1)
  | (_, x) :: _ => inr (level, negb (PrimFloat.eqb x (last_value s)))
  end.

Definition auto_arima (s : Series) (d start_p start_q max_p max_q
                       max_order : Z) (verbose : bool) : exn + Model :=
  if max_order <? d then inl (LibraryError 2) else inr (last_value s).

Definition fit_predict (limit : Z) (m : Model) (s : Series) (n : Z)
    : Model * (exn + list float) :=
  if limit <=? shape0 s then (m, inl (LibraryError 3))
  else (last_value s, inr [last_value s]).

Definition predict (m : Model) (n : Z) : Model * (exn + list float) :=
  (m, inr [m]).

Definition training : Series :=
  [(0, 0%float); (1, 1%float); (2, 3%float); (3, 6%float); (4, 10%float)].

Definition short_training : Series :=
  [(0, 0%float); (1, 1%float); (2, 3%float)].

Definition out_of_sample : Series :=
  [(5, 15%float); (6, 21%float); (7, 28%float); (8, 36%float)].

(** Out-of-sample series for the edge cases: one with the first label
    coming again, one that departs from [out_of_sample] after two
    entries. *)
Definition repeated_label : Series :=
  [(5, 15%float); (6, 21%float); (5, 28%float)].

Definition other_tail : Series :=
  [(5, 15%float); (6, 21%float); (7, 0%float); (8, 1%float)].

Definition ten_points : Series :=
  [(5, 15%float); (6, 21%float); (7, 28%float); (8, 36%float);
   (9, 45%float); (10, 55%float); (11, 66%float); (12, 78%float);
   (13, 91%float); (14, 105%float)].

End Toy.

Section Forecast.

(** The state of a fitted ARIMA model, and the four collaborators.  A method
    of the model may change the model whether it returns or raises. *)
Variable Model : Type.
Variable ADFTest_should_diff : float -> Series -> exn + float * bool.
Variable auto_arima :
  Series -> Z -> Z -> Z -> Z -> Z -> Z -> bool -> exn + Model.
Variable Model_fit_predict : Model -> Series -> Z -> Model * (exn + list float).
Variable Model_predict : Model -> Z -> Model * (exn + list float).

(** ** The forecaster object and the state of a run *)

Record AutoARIMAForecast := {
  start_p : Z;
  start_q : Z;
  max_p : Z;
  max_q : Z;
  arima_model : option Model;
  y_train : option loc
}.

(** [AutoARIMAForecast.__init__] *)
Definition init (start_p start_q max_p max_q : Z) : AutoARIMAForecast :=
  {| start_p := start_p; start_q := start_q; max_p := max_p; max_q := max_q;
     arima_model := None; y_train := None |}.

Record state := {
  heap : list Series;
  self : AutoARIMAForecast;
  trace : list event
}.

(** The state a run starts in: the objects the caller holds, a forecaster,
    nothing logged. *)
Definition world (objects : list Series) (o : AutoARIMAForecast) : state :=
  {| heap := objects; self := o; trace := [] |}.

Definition M (A : Type) : Type := state -> outcome A * state.

Definition ret {A} (a : A) : M A := fun st => (Ok a, st).

Definition bind {A B} (c : M A) (k : A -> M B) : M B :=
  fun st =>
    match c st with
    | (Ok a, st') => k a st'
    | (Raise e, st') => (Raise e, st')
    | (Diverge, st') => (Diverge, st')
    end.

Notation "x <- c ;; k" := (bind c (fun x => k))
  (at level 100, c at next level, right associativity).
Notation "c ;; k" := (bind c (fun _ => k))
  (at level 100, right associativity).

Definition raise {A} (e : exn) : M A := fun st => (Raise e, st).

Definition diverge {A} : M A := fun st => (Diverge, st).

Definition lift {A} (r : exn + A) : M A :=
  match r with inl e => raise e | inr a => ret a end.

(** The three ways a state changes: a new object, a field of the
    forecaster assigned, a call logged. *)
Definition push (s : Series) (st : state) : state :=
  {| heap := heap st ++ [s]; self := self st; trace := trace st |}.

Definition with_model (o : AutoARIMAForecast) (m : option Model)
    : AutoARIMAForecast :=
  {| start_p := start_p o; start_q := start_q o; max_p := max_p o;
     max_q := max_q o; arima_model := m; y_train := y_train o |}.

Definition with_y_train (o : AutoARIMAForecast) (l : option loc)
    : AutoARIMAForecast :=
  {| start_p := start_p o; start_q := start_q o; max_p := max_p o;
     max_q := max_q o; arima_model := arima_model o; y_train := l |}.

Definition assign (f : AutoARIMAForecast -> AutoARIMAForecast) (st : state)
    : state :=
  {| heap := heap st; self := f (self st); trace := trace st |}.

Definition log (ev : event) (st : state) : state :=
  {| heap := heap st; self := self st; trace := trace st ++ [ev] |}.

Definition emit (ev : event) : M unit := fun st => (Ok tt, log ev st).

(** A new pandas object. *)
Definition alloc (s : Series) : M loc :=
  fun st => (Ok (length (heap st)), push s st).

Definition deref (l : loc) : M Series :=
  fun st =>
    match heap st !! l with
    | Some s => (Ok s, st)
    | None => (Raise BadReference, st)
    end.

Definition get_self : M AutoARIMAForecast := fun st => (Ok (self st), st).

(** [self.y_train = l] *)
Definition set_y_train (l : loc) : M unit :=
  fun st => (Ok tt, assign (fun o => with_y_train o (Some l)) st).

(** [self.arima_model = m], and also what a method of the model does to the
    model it is called on. *)
Definition set_arima_model (m : Model) : M unit :=
  fun st => (Ok tt, assign (fun o => with_model o (Some m)) st).

(** An attribute of a field that may still be [None]. *)
Definition attr_of {A} (field : option A) : M A :=
  match field with
  | Some a => ret a
  | None => raise AttributeError
  end.

(** *** pandas operations on objects: each returns a new object *)

Definition s_copy (l : loc) : M loc :=
  s <- deref l ;; alloc s.

Definition s_diff (l : loc) : M loc :=
  s <- deref l ;; emit EvDiff ;; alloc (diff s).

Definition s_dropna (l : loc) : M loc :=
  s <- deref l ;; alloc (dropna s).

Definition s_iloc_from (start : Z) (l : loc) : M loc :=
  s <- deref l ;; alloc (iloc_from start s).

Definition s_iloc_to (stop : Z) (l : loc) : M loc :=
  s <- deref l ;; alloc (iloc_to stop s).

Definition s_append (l other : loc) : M loc :=
  s <- deref l ;; o <- deref other ;; alloc (append s o).

Definition s_shape0 (l : loc) : M Z :=
  s <- deref l ;; ret (shape0 s).

(** [l.index[i]] *)
Definition s_index_at (l : loc) (i : Z) : M Z :=
  s <- deref l ;; lift (getitem i (index s)).

(** *** The collaborators, called on objects and logged *)

Definition call_should_diff (level : float) (x : loc) : M (float * bool) :=
  s <- deref x ;;
  let r := ADFTest_should_diff level s in
  emit (EvShouldDiff level s r) ;;
  lift r.

Definition call_auto_arima (y : loc) (d start_p start_q max_p max_q
                            max_order : Z) (verbose : bool) : M Model :=
  s <- deref y ;;
  let r := auto_arima s d start_p start_q max_p max_q max_order verbose in
  emit (EvAutoArima s d start_p start_q max_p max_q max_order verbose
          (match r with inl e => Some e | inr _ => None end)) ;;
  lift r.

(** [self.arima_model.fit_predict(x, n_periods=n)], the model [m] being the
    one stored: the model is refit in place. *)
Definition call_fit_predict (m : Model) (x : loc) (n : Z) : M (list float) :=
  s <- deref x ;;
  let '(m', r) := Model_fit_predict m s n in
  set_arima_model m' ;;
  emit (EvFitPredict s n r) ;;
  lift r.

(** [self.arima_model.predict(n_periods=n)] *)
Definition call_predict (m : Model) (n : Z) : M (list float) :=
  let '(m', r) := Model_predict m n in
  set_arima_model m' ;;
  emit (EvPredict n r) ;;
  lift r.

(** ** [get_trend_order] *)

(** [for _ in range(n): test_series = test_series.diff().dropna()] *)
Fixpoint diff_dropna_times (n : nat) (test_series : loc) : M loc :=
  match n with
  | O => ret test_series
  | S n' =>
      d <- s_diff test_series ;;
      test_series <- s_dropna d ;;
      diff_dropna_times n' test_series
  end.

(** The [while stationarity_flag is False] loop, on fuel. *)
Fixpoint trend_order_loop (fuel : nat) (y_train : loc)
    (diff_order order : Z) (stationarity_flag : bool) : M Z :=
  if stationarity_flag then ret diff_order
  else
    match fuel with
    | O => diverge
    | S fuel' =>
        test_series <- s_copy y_train ;;
        test_series <- diff_dropna_times (Z.to_nat order) test_series ;;
        r <- call_should_diff alpha test_series ;;
        if negb r.2
        then trend_order_loop fuel' y_train order (order + 1) true
        else trend_order_loop fuel' y_train diff_order (order + 1) false
    end.

Definition get_trend_order (fuel : nat) (y_train : loc) : M Z :=
  trend_order_loop fuel y_train 0 0 false.

(** ** [AutoARIMAForecast.get_best_arima_model] *)

Definition get_best_arima_model (fuel : nat) (y_train : loc)
    (verbose : bool) : M unit :=
  trend_order <- get_trend_order fuel y_train ;;
  c <- s_copy y_train ;;
  set_y_train c ;;
  o <- get_self ;;
  m <- call_auto_arima y_train trend_order (start_p o) (start_q o)
         (max_p o) (max_q o) (max_q o + max_p o + trend_order) verbose ;;
  set_arima_model m.

(** ** [AutoARIMAForecast.predict] *)

(** The right-hand side of the assignment in the retraining branch. *)
Definition refit_forecast (y : loc) (i : Z) (train_window : option Z)
    : M float :=
  o <- get_self ;;
  m <- attr_of (arima_model o) ;;
  ctx <- match train_window with
         | None =>
             h <- attr_of (y_train o) ;;
             pre <- s_iloc_to (i - 1) y ;;
             s_append h pre
         | Some w =>
             h <- attr_of (y_train o) ;;
             win <- s_iloc_from (- w) h ;;
             pre <- s_iloc_to (i - 1) y ;;
             s_append win pre
         end ;;
  fc <- call_fit_predict m ctx 1 ;;
  lift (getitem 0 fc).

(** The right-hand side of the assignment in the other branch. *)
Definition cached_forecast : M float :=
  o <- get_self ;;
  m <- attr_of (arima_model o) ;;
  fc <- call_predict m 1 ;;
  lift (getitem 0 fc).

(** The body of the [for] loop at index [i]. *)
Definition predict_step (y : loc) (retrain_freq : Z)
    (train_window : option Z) (i : Z) (retrain_idx : Z)
    (prediction : Series) : M (Z * Series) :=
  if retrain_freq <=? retrain_idx then
    let retrain_idx := 0 in
    v <- refit_forecast y i train_window ;;
    label <- s_index_at y i ;;
    ret (retrain_idx + 1, loc_set label v prediction)
  else
    v <- cached_forecast ;;
    label <- s_index_at y i ;;
    ret (retrain_idx + 1, loc_set label v prediction).

Fixpoint predict_loop (y : loc) (retrain_freq : Z) (train_window : option Z)
    (indices : list Z) (retrain_idx : Z) (prediction : Series) : M Series :=
  match indices with
  | [] => ret prediction
  | i :: rest =>
      r <- predict_step y retrain_freq train_window i retrain_idx prediction ;;
      predict_loop y retrain_freq train_window rest r.1 r.2
  end.

Definition predict (y : loc) (retrain_freq : Z) (train_window : option Z)
    : M Series :=
  s <- deref y ;;
  let prediction := nan_series (index s) in
  n <- s_shape0 y ;;
  predict_loop y retrain_freq train_window (range 1 n) 0 prediction.

(** ** The loop of [predict] read on values

    What a run of [predict] computes depends on the heap only through two
    series, the out-of-sample one and the stored training history.  The
    definitions below are the loop once more, on these two values, giving
    the outcome, the model left behind and the calls made; [predict_run]
    proves that [predict] computes exactly this, and the properties of
    [predict] are then proved on the reading. *)

(** The training history a state stores, if any. *)
Definition history (st : state) : option Series :=
  match y_train (self st) with
  | Some l => heap st !! l
  | None => None
  end.

(** No reference of the forecaster dangles. *)
Definition wf (st : state) : Prop :=
  match y_train (self st) with
  | Some l => (l < length (heap st))%nat
  | None => True
  end.

(** The part of the training history a retrain uses. *)
Definition window (train_window : option Z) (hist : Series) : Series :=
  match train_window with
  | None => hist
  | Some w => iloc_from (- w) hist
  end.

(** The series a retrain at index [i] is fit on. *)
Definition retrain_context (train_window : option Z) (hist yv : Series)
    (i : Z) : Series :=
  append (window train_window hist) (iloc_to (i - 1) yv).

Definition forecast_of (r : exn + list float) : outcome float :=
  match r with
  | inl e => Raise e
  | inr fc =>
      match getitem 0 fc with
      | inl e => Raise e
      | inr v => Ok v
      end
  end.

Definition refit_v (m : option Model) (hist : option Series) (yv : Series)
    (i : Z) (train_window : option Z)
    : outcome float * option Model * list event :=
  match m, hist with
  | Some m0, Some h =>
      let ctx := retrain_context train_window h yv i in
      let mr := Model_fit_predict m0 ctx 1 in
      (forecast_of mr.2, Some mr.1, [EvFitPredict ctx 1 mr.2])
  | _, _ => (Raise AttributeError, m, [])
  end.

Definition cached_v (m : option Model)
    : outcome float * option Model * list event :=
  match m with
  | Some m0 =>
      let mr := Model_predict m0 1 in
      (forecast_of mr.2, Some mr.1, [EvPredict 1 mr.2])
  | None => (Raise AttributeError, m, [])
  end.

Definition step_v (m : option Model) (hist : option Series) (yv : Series)
    (retrain_freq : Z) (train_window : option Z) (i retrain_idx : Z)
    (prediction : Series)
    : outcome (Z * Series) * option Model * list event :=
  let r := if retrain_freq <=? retrain_idx
           then refit_v m hist yv i train_window else cached_v m in
  let retrain_idx' := if retrain_freq <=? retrain_idx
                      then 0 + 1 else retrain_idx + 1 in
  (match r.1.1 with
   | Ok v =>
       match getitem i (index yv) with
       | inl e => Raise e
       | inr label => Ok (retrain_idx', loc_set label v prediction)
       end
   | Raise e => Raise e
   | Diverge => Diverge
   end, r.1.2, r.2).

Fixpoint loop_v (m : option Model) (hist : option Series) (yv : Series)
    (retrain_freq : Z) (train_window : option Z) (indices : list Z)
    (retrain_idx : Z) (prediction : Series)
    : outcome Series * option Model * list event :=
  match indices with
  | [] => (Ok prediction, m, [])
  | i :: rest =>
      let s := step_v m hist yv retrain_freq train_window i retrain_idx
                 prediction in
      match s.1.1 with
      | Ok r =>
          let l := loop_v s.1.2 hist yv retrain_freq train_window rest
                     r.1 r.2 in
          (l.1.1, l.1.2, s.2 ++ l.2)
      | Raise e => (Raise e, s.1.2, s.2)
      | Diverge => (Diverge, s.1.2, s.2)
      end
  end.

Definition predict_v (m : option Model) (hist : option Series) (yv : Series)
    (retrain_freq : Z) (train_window : option Z)
    : outcome Series * option Model * list event :=
  loop_v m hist yv retrain_freq train_window (range 1 (shape0 yv)) 0
    (nan_series (index yv)).

(** ** What the statements are about

    The states pieces of code leave behind, what a logged call reports, and
    the readings on values of the detection and of the fit. *)

(** The state after a piece of [predict] has run: objects were added to the
    heap, the model may have changed, calls were logged. *)
Definition after (st : state) (extra : list Series) (m : option Model)
    (evs : list event) : state :=
  {| heap := heap st ++ extra; self := with_model (self st) m;
     trace := trace st ++ evs |}.

(** The series that the refits logged in [evs] were given are among the
    objects [extra]. *)
Definition contexts_in (evs : list event) (extra : list Series) : Prop :=
  forall x n r, EvFitPredict x n r ∈ evs -> x ∈ extra.

(** What a logged call reports: the exception it raised, if any. *)
Definition failure_of (ev : event) : option exn :=
  match ev with
  | EvShouldDiff _ _ (inl e) => Some e
  | EvAutoArima _ _ _ _ _ _ _ _ f => f
  | EvFitPredict _ _ (inl e) => Some e
  | EvPredict _ (inl e) => Some e
  | _ => None
  end.

(** What a logged call of the model reports: the forecast it returned. *)
Definition forecast_in (ev : event) : option float :=
  match ev with
  | EvFitPredict _ _ (inr fc) | EvPredict _ (inr fc) =>
      match getitem 0 fc with inr v => Some v | inl _ => None end
  | _ => None
  end.

(** The series that is tested at a given order. *)
Fixpoint differenced (n : nat) (s : Series) : Series :=
  match n with
  | O => s
  | S n' => differenced n' (dropna (diff s))
  end.

Fixpoint trend_v (fuel : nat) (yv : Series) (order : Z)
    : outcome Z * list event :=
  match fuel with
  | O => (Diverge, [])
  | S fuel' =>
      let x := differenced (Z.to_nat order) yv in
      let r := ADFTest_should_diff alpha x in
      let evs := replicate (Z.to_nat order) EvDiff ++ [EvShouldDiff alpha x r] in
      match r with
      | inl e => (Raise e, evs)
      | inr pb =>
          if negb pb.2 then (Ok order, evs)
          else ((trend_v fuel' yv (order + 1)).1,
                evs ++ (trend_v fuel' yv (order + 1)).2)
      end
  end.

(** The state after a piece of code that leaves the forecaster alone. *)
Definition grown (st : state) (extra : list Series) (evs : list event)
    : state :=
  {| heap := heap st ++ extra; self := self st; trace := trace st ++ evs |}.

(** What the test says of a series at the level 0.05. *)
Definition passes (s : Series) : Prop :=
  exists pv, ADFTest_should_diff alpha s = inr (pv, false).

Definition needs_diff (s : Series) : Prop :=
  exists pv, ADFTest_should_diff alpha s = inr (pv, true).

(** The call of [auto_arima] that the fit makes for a difference order. *)
Definition search (o : AutoARIMAForecast) (yv : Series) (d : Z)
    (verbose : bool) : exn + Model :=
  auto_arima yv d (start_p o) (start_q o) (max_p o) (max_q o)
    (max_q o + max_p o + d) verbose.

Definition search_event (o : AutoARIMAForecast) (yv : Series) (d : Z)
    (verbose : bool) : event :=
  EvAutoArima yv d (start_p o) (start_q o) (max_p o) (max_q o)
    (max_q o + max_p o + d) verbose
    (match search o yv d verbose with inl e => Some e | inr _ => None end).

(** The state the fit leaves once a difference order [d] was found. *)
Definition fit_state (st : state) (extra : list Series) (evs : list event)
    (yv : Series) (d : Z) (verbose : bool) : state :=
  {| heap := (heap st ++ extra) ++ [yv];
     self :=
       with_model (with_y_train (self st) (Some (length (heap st ++ extra))))
         (match search (self st) yv d verbose with
          | inr m => Some m
          | inl _ => arima_model (self st)
          end);
     trace := (trace st ++ evs) ++ [search_event (self st) yv d verbose] |}.

(** The calls a run of [predict] logs, in the order of the passes. *)
Definition calls_of (st : state) (yl : loc) (k : Z) (w : option Z)
    : list event :=
  drop (length (trace st)) (trace (predict yl k w st).2).

(** *** Running the monad *)

Lemma bind_ok {A B} (c : M A) (k : A -> M B) st a st' :
  c st = (Ok a, st') -> bind c k st = k a st'.
Proof. unfold bind. intros ->. reflexivity. Qed.

Lemma bind_raise {A B} (c : M A) (k : A -> M B) st e st' :
  c st = (Raise e, st') -> bind c k st = (Raise e, st').
Proof. unfold bind. intros ->. reflexivity. Qed.

Lemma deref_ok st l s : heap st !! l = Some s -> deref l st = (Ok s, st).
Proof. unfold deref. intros ->. reflexivity. Qed.

Lemma heap_push_old st s l x :
  heap st !! l = Some x -> heap (push s st) !! l = Some x.
Proof. intros H. simpl. apply lookup_app_l_Some, H. Qed.

Lemma heap_push_new st s : heap (push s st) !! length (heap st) = Some s.
Proof. simpl. apply list_lookup_middle. reflexivity. Qed.

Lemma s_copy_ok st l s :
  heap st !! l = Some s -> s_copy l st = (Ok (length (heap st)), push s st).
Proof. intros H. unfold s_copy. rewrite (bind_ok _ _ _ _ _ (deref_ok _ _ _ H)). reflexivity. Qed.

Lemma s_iloc_to_ok st k l s :
  heap st !! l = Some s ->
  s_iloc_to k l st = (Ok (length (heap st)), push (iloc_to k s) st).
Proof. intros H. unfold s_iloc_to. rewrite (bind_ok _ _ _ _ _ (deref_ok _ _ _ H)). reflexivity. Qed.

Lemma s_iloc_from_ok st k l s :
  heap st !! l = Some s ->
  s_iloc_from k l st = (Ok (length (heap st)), push (iloc_from k s) st).
Proof. intros H. unfold s_iloc_from. rewrite (bind_ok _ _ _ _ _ (deref_ok _ _ _ H)). reflexivity. Qed.

Lemma s_append_ok st l o s so :
  heap st !! l = Some s -> heap st !! o = Some so ->
  s_append l o st = (Ok (length (heap st)), push (append s so) st).
Proof.
  intros H Ho. unfold s_append.
  rewrite (bind_ok _ _ _ _ _ (deref_ok _ _ _ H)).
  rewrite (bind_ok _ _ _ _ _ (deref_ok _ _ _ Ho)). reflexivity.
Qed.

Lemma call_fit_predict_run st m x n s :
  heap st !! x = Some s ->
  call_fit_predict m x n st =
  (match (Model_fit_predict m s n).2 with inl e => Raise e | inr fc => Ok fc end,
   log (EvFitPredict s n (Model_fit_predict m s n).2)
     (assign (fun o => with_model o (Some (Model_fit_predict m s n).1)) st)).
Proof.
  intros H. unfold call_fit_predict.
  rewrite (bind_ok _ _ _ _ _ (deref_ok _ _ _ H)).
  destruct (Model_fit_predict m s n) as [m' [e|fc]]; reflexivity.
Qed.

Lemma call_predict_run st m n :
  call_predict m n st =
  (match (Model_predict m n).2 with inl e => Raise e | inr fc => Ok fc end,
   log (EvPredict n (Model_predict m n).2)
     (assign (fun o => with_model o (Some (Model_predict m n).1)) st)).
Proof.
  unfold call_predict.
  destruct (Model_predict m n) as [m' [e|fc]]; reflexivity.
Qed.

Lemma with_model_same (o : AutoARIMAForecast) :
  with_model o (arima_model o) = o.
Proof. destruct o; reflexivity. Qed.

Lemma get_self_ok st : get_self st = (Ok (self st), st).
Proof. reflexivity. Qed.

Lemma attr_of_ok {A} (f : option A) a st : f = Some a -> attr_of f st = (Ok a, st).
Proof. intros ->. reflexivity. Qed.

Lemma attr_of_none {A} (f : option A) st :
  f = None -> attr_of f st = (Raise AttributeError, st).
Proof. intros ->. reflexivity. Qed.

Lemma bind_then {A B} (c : M A) (k : A -> M B) st a st' r :
  c st = (Ok a, st') -> k a st' = r -> bind c k st = r.
Proof. intros H <-. apply bind_ok, H. Qed.

Create HintDb run discriminated.
#[local] Hint Resolve deref_ok heap_push_old heap_push_new s_copy_ok
  s_iloc_to_ok s_iloc_from_ok s_append_ok get_self_ok attr_of_ok
  attr_of_none bind_then bind_raise : run.

Ltac run :=
  repeat first
    [ erewrite bind_ok by solve [ eauto 12 with run ]
    | erewrite bind_raise by solve [ eauto 12 with run ] ].

Lemma after_nothing st : after st [] (arima_model (self st)) [] = st.
Proof.
  unfold after. rewrite with_model_same, !app_nil_r. destruct st; reflexivity.
Qed.

Ltac in_cons :=
  solve [ apply elem_of_cons; auto ].

Ltac same_state :=
  unfold raise, ret, log, assign, push, after; simpl;
  rewrite <- ?app_assoc, ?app_nil_r; reflexivity.

Lemma contexts_in_nil extra : contexts_in [] extra.
Proof. intros x n r H. apply elem_of_nil in H as []. Qed.

Lemma contexts_in_app evs extra evs' extra' :
  contexts_in evs extra -> contexts_in evs' extra' ->
  contexts_in (evs ++ evs') (extra ++ extra').
Proof.
  intros H H' x n r [Hin|Hin]%elem_of_app; apply elem_of_app; eauto.
Qed.

Lemma refit_forecast_run st yl yv i w :
  heap st !! yl = Some yv -> wf st ->
  exists extra,
    refit_forecast yl i w st =
    ((refit_v (arima_model (self st)) (history st) yv i w).1.1,
     after st extra
       (refit_v (arima_model (self st)) (history st) yv i w).1.2
       (refit_v (arima_model (self st)) (history st) yv i w).2) /\
    contexts_in (refit_v (arima_model (self st)) (history st) yv i w).2 extra.
Proof.
  intros Hy Hwf. unfold refit_forecast, refit_v, history, wf in *.
  destruct (arima_model (self st)) as [m0|] eqn:Hm.
  2:{ exists []. split; [|apply contexts_in_nil].
      run. simpl. rewrite <- Hm, after_nothing. reflexivity. }
  destruct (y_train (self st)) as [hl|] eqn:Hl.
  2:{ exists []. split; [|apply contexts_in_nil].
      destruct w; run; simpl; rewrite <- Hm, after_nothing; reflexivity. }
  destruct (lookup_lt_is_Some_2 _ _ Hwf) as [hv Hh]. rewrite Hh. simpl.
  destruct w as [w|].
  - exists [iloc_from (- w) hv; iloc_to (i - 1) yv;
            retrain_context (Some w) hv yv i].
    split.
    + run. unfold bind.
      erewrite call_fit_predict_run by apply heap_push_new.
      unfold retrain_context, window, forecast_of, after.
      destruct (Model_fit_predict m0 _ 1) as [m' [e|fc]]; simpl;
        [|destruct (getitem 0 fc); simpl]; same_state.
    + intros x n r Hin. apply list_elem_of_singleton in Hin as [= -> _ _].
      apply elem_of_cons. right. apply elem_of_cons. right.
      apply elem_of_cons. left. reflexivity.
  - exists [iloc_to (i - 1) yv; retrain_context None hv yv i].
    split.
    + run. unfold bind.
      erewrite call_fit_predict_run by apply heap_push_new.
      unfold retrain_context, window, forecast_of, after.
      destruct (Model_fit_predict m0 _ 1) as [m' [e|fc]]; simpl;
        [|destruct (getitem 0 fc); simpl]; same_state.
    + intros x n r Hin. apply list_elem_of_singleton in Hin as [= -> _ _].
      apply elem_of_cons. right. apply elem_of_cons. left. reflexivity.
Qed.

Lemma cached_forecast_run st :
  cached_forecast st =
  ((cached_v (arima_model (self st))).1.1,
   after st [] (cached_v (arima_model (self st))).1.2
     (cached_v (arima_model (self st))).2).
Proof.
  unfold cached_forecast, cached_v.
  destruct (arima_model (self st)) as [m0|] eqn:Hm.
  2:{ run. simpl. rewrite <- Hm, after_nothing. reflexivity. }
  run. unfold bind. rewrite call_predict_run.
  unfold forecast_of, after.
  destruct (Model_predict m0 1) as [m' [e|fc]]; simpl;
    [|destruct (getitem 0 fc); simpl]; same_state.
Qed.

Lemma cached_v_no_context m : contexts_in (cached_v m).2 [].
Proof.
  unfold cached_v. destruct m as [m0|]; [|apply contexts_in_nil].
  intros x n r Hin. apply list_elem_of_singleton in Hin. discriminate.
Qed.

Lemma after_heap_old st extra m evs l x :
  heap st !! l = Some x -> heap (after st extra m evs) !! l = Some x.
Proof. intros H. simpl. apply lookup_app_l_Some, H. Qed.

Lemma s_index_at_run st l s i :
  heap st !! l = Some s ->
  s_index_at l i st =
  (match getitem i (index s) with inl e => Raise e | inr t => Ok t end, st).
Proof.
  intros H. unfold s_index_at. run. destruct (getitem i (index s)); reflexivity.
Qed.

Lemma predict_step_run st yl yv k w i c p :
  heap st !! yl = Some yv -> wf st ->
  exists extra,
    predict_step yl k w i c p st =
    ((step_v (arima_model (self st)) (history st) yv k w i c p).1.1,
     after st extra
       (step_v (arima_model (self st)) (history st) yv k w i c p).1.2
       (step_v (arima_model (self st)) (history st) yv k w i c p).2) /\
    contexts_in (step_v (arima_model (self st)) (history st) yv k w i c p).2
      extra.
Proof.
  intros Hy Hwf. unfold predict_step, step_v.
  destruct (k <=? c).
  - destruct (refit_forecast_run st yl yv i w Hy Hwf) as [extra [E Hx]].
    exists extra. split; [|exact Hx]. unfold bind at 1. rewrite E. simpl.
    destruct (refit_v _ _ yv i w) as [[[v|e|] m'] evs]; simpl; try reflexivity.
    unfold bind. erewrite s_index_at_run by (apply after_heap_old, Hy).
    destruct (getitem i (index yv)); reflexivity.
  - exists []. split; [|apply cached_v_no_context].
    unfold bind at 1. rewrite cached_forecast_run. simpl.
    destruct (cached_v _) as [[[v|e|] m'] evs]; simpl; try reflexivity.
    unfold bind. erewrite s_index_at_run by (apply after_heap_old, Hy).
    destruct (getitem i (index yv)); reflexivity.
Qed.

Lemma after_after st extra m evs extra' m' evs' :
  after (after st extra m evs) extra' m' evs' =
  after st (extra ++ extra') m' (evs ++ evs').
Proof. unfold after. simpl. rewrite !app_assoc. reflexivity. Qed.

Lemma after_wf st extra m evs : wf st -> wf (after st extra m evs).
Proof.
  unfold wf. simpl. destruct (y_train (self st)); [|done].
  rewrite length_app. lia.
Qed.

Lemma after_history st extra m evs :
  wf st -> history (after st extra m evs) = history st.
Proof.
  unfold wf, history. simpl. destruct (y_train (self st)); [|done].
  intros H. apply lookup_app_l, H.
Qed.

Lemma predict_loop_run indices : forall st yl yv k w c p,
  heap st !! yl = Some yv -> wf st ->
  exists extra,
    predict_loop yl k w indices c p st =
    ((loop_v (arima_model (self st)) (history st) yv k w indices c p).1.1,
     after st extra
       (loop_v (arima_model (self st)) (history st) yv k w indices c p).1.2
       (loop_v (arima_model (self st)) (history st) yv k w indices c p).2) /\
    contexts_in
      (loop_v (arima_model (self st)) (history st) yv k w indices c p).2 extra.
Proof.
  induction indices as [|i rest IH]; intros st yl yv k w c p Hy Hwf.
  - exists []. split; [|apply contexts_in_nil].
    simpl. rewrite after_nothing. reflexivity.
  - destruct (predict_step_run st yl yv k w i c p Hy Hwf) as [extra [E Hx]].
    cbn [predict_loop loop_v]. unfold bind. rewrite E. clear E.
    destruct (step_v _ _ yv k w i c p) as [[[r|e|] m'] evs]; cbn [fst snd] in *;
      try (exists extra; split; [reflexivity|exact Hx]).
    destruct (IH (after st extra m' evs) yl yv k w r.1 r.2) as [extra' [E' Hx']];
      [apply after_heap_old, Hy | apply after_wf, Hwf |].
    exists (extra ++ extra'). rewrite E'.
    rewrite after_history in * by apply Hwf. rewrite after_after.
    split; [reflexivity|]. apply contexts_in_app; assumption.
Qed.

(** [predict] computes what its reading on values says: the outcome, the
    model left in the forecaster and the calls logged are those of
    [predict_v]; the heap only grows, by objects among which are the series
    of the refits, and nothing else of the forecaster changes. *)
Lemma predict_run st yl yv k w :
  heap st !! yl = Some yv -> wf st ->
  exists extra,
    predict yl k w st =
    ((predict_v (arima_model (self st)) (history st) yv k w).1.1,
     after st extra
       (predict_v (arima_model (self st)) (history st) yv k w).1.2
       (predict_v (arima_model (self st)) (history st) yv k w).2) /\
    contexts_in (predict_v (arima_model (self st)) (history st) yv k w).2 extra.
Proof.
  intros Hy Hwf. unfold predict, predict_v, s_shape0. run.
  apply predict_loop_run; assumption.
Qed.

(** *** Properties of the reading *)

Lemma range_nil a b : b <= a -> range a b = [].
Proof. intros H. unfold range. replace (Z.to_nat (b - a)) with 0%nat by lia. reflexivity. Qed.

Lemma range_cons a b : a < b -> range a b = a :: range (a + 1) b.
Proof.
  intros H. unfold range.
  replace (Z.to_nat (b - a)) with (S (Z.to_nat (b - (a + 1)))) by lia.
  cbn [seq fmap list_fmap]. f_equal; [lia|].
  rewrite <- fmap_S_seq, <- list_fmap_compose. apply list_fmap_ext.
  intros _ j _. simpl. lia.
Qed.

Lemma range_lookup a b (j : nat) i :
  range a b !! j = Some i -> i = a + Z.of_nat j /\ i < b.
Proof.
  unfold range. rewrite list_lookup_fmap.
  destruct (seq 0 (Z.to_nat (b - a)) !! j) as [x|] eqn:E; [|discriminate].
  apply lookup_seq in E as [-> ?]. simpl. intros [= <-]. lia.
Qed.

Lemma range_length a b : length (range a b) = Z.to_nat (b - a).
Proof. unfold range. rewrite length_fmap, length_seq. reflexivity. Qed.

(** One pass of the loop: either the model is missing and nothing is
    called, or exactly one call is made, a refit when the counter has
    reached [retrain_freq] and a cached forecast otherwise. *)
Lemma step_v_cases m hist yv k w i c p :
  (step_v m hist yv k w i c p = (Raise AttributeError, m, []))
  \/
  (exists ev m',
     (step_v m hist yv k w i c p).2 = [ev] /\
     (step_v m hist yv k w i c p).1.2 = Some m' /\
     is_refit ev = (k <=? c) /\
     (is_refit ev = false -> exists r, ev = EvPredict 1 r) /\
     (forall x n r, ev = EvFitPredict x n r ->
        exists h, hist = Some h /\ x = retrain_context w h yv i /\ n = 1) /\
     (forall e, failure_of ev = Some e ->
        (step_v m hist yv k w i c p).1.1 = Raise e) /\
     (forall r, (step_v m hist yv k w i c p).1.1 = Ok r ->
        failure_of ev = None /\
        r.1 = (if k <=? c then 1 else c + 1) /\
        exists label v,
          getitem i (index yv) = inr label /\ r.2 = loc_set label v p /\
          forecast_in ev = Some v) /\
     (step_v m hist yv k w i c p).1.1 <> Diverge).
Proof.
  unfold step_v, refit_v, cached_v.
  destruct (k <=? c) eqn:Ek.
  - destruct m as [m0|]; [|left; reflexivity].
    destruct hist as [h|]; [|left; reflexivity].
    right. cbn [fst snd].
    destruct (Model_fit_predict m0 (retrain_context w h yv i) 1) as [m' r].
    cbn [fst snd]. exists (EvFitPredict (retrain_context w h yv i) 1 r), m'.
    do 3 (split; [reflexivity|]).
    split; [discriminate|].
    split; [intros x n r' [= <- <- <-]; eauto|].
    destruct r as [e'|fc]; cbn [forecast_of failure_of forecast_in].
    { split; [congruence|]. split; [discriminate|discriminate]. }
    split; [discriminate|].
    destruct (getitem 0 fc) as [|v]; [split; discriminate|].
    destruct (getitem i (index yv)) as [|label]; [split; discriminate|].
    split; [|discriminate].
    intros r [= <-]. cbn [fst snd]. eauto 8.
  - destruct m as [m0|]; [|left; reflexivity].
    right. cbn [fst snd].
    destruct (Model_predict m0 1) as [m' r].
    cbn [fst snd]. exists (EvPredict 1 r), m'.
    do 3 (split; [reflexivity|]).
    split; [eauto|].
    split; [intros x n r' [=]|].
    destruct r as [e'|fc]; cbn [forecast_of failure_of forecast_in].
    { split; [congruence|]. split; [discriminate|discriminate]. }
    split; [discriminate|].
    destruct (getitem 0 fc) as [|v]; [split; discriminate|].
    destruct (getitem i (index yv)) as [|label]; [split; discriminate|].
    split; [|discriminate].
    intros r [= <-]. cbn [fst snd]. eauto 8.
Qed.

Lemma getitem_lookup {A} (i : Z) (l : list A) a :
  0 <= i -> getitem i l = inr a -> l !! Z.to_nat i = Some a.
Proof.
  intros Hi. unfold getitem.
  destruct (i <? 0) eqn:E; [apply Z.ltb_lt in E; lia|]. rewrite E.
  destruct (l !! Z.to_nat i); [intros [= ->]; reflexivity|discriminate].
Qed.

Lemma loc_set_index label v (p : Series) :
  label ∈ index p -> index (loc_set label v p) = index p.
Proof.
  intros Hin. unfold loc_set.
  replace (existsb (Z.eqb label) (index p)) with true.
  - unfold index. rewrite <- list_fmap_compose. apply list_fmap_ext.
    intros _ [t x] _. simpl. destruct (t =? label); reflexivity.
  - symmetry. apply existsb_exists. exists label.
    split; [apply list_elem_of_In, Hin|apply Z.eqb_refl].
Qed.

Lemma loc_set_lookup label v (p : Series) (q : nat) e :
  label ∈ index p -> p !! q = Some e ->
  loc_set label v p !! q = Some (if e.1 =? label then (e.1, v) else e).
Proof.
  intros Hin Hq. unfold loc_set.
  replace (existsb (Z.eqb label) (index p)) with true.
  - cbv iota. rewrite list_lookup_fmap, Hq. reflexivity.
  - symmetry. apply existsb_exists. exists label.
    split; [apply list_elem_of_In, Hin|apply Z.eqb_refl].
Qed.

(** The run of the loop, pass by pass: the [j]-th call logged is the one
    of the pass at the [j]-th index. *)
Lemma loop_v_refit_context yv k w indices : forall m hist c p (j : nat) x n r,
  (loop_v m hist yv k w indices c p).2 !! j = Some (EvFitPredict x n r) ->
  exists h i,
    hist = Some h /\ indices !! j = Some i /\
    x = retrain_context w h yv i /\ n = 1.
Proof.
  induction indices as [|i rest IH]; intros m hist c p j x n r; cbn [loop_v].
  - cbn [snd]. rewrite lookup_nil. discriminate.
  - destruct (step_v_cases m hist yv k w i c p)
      as [E|(ev & m' & Eev & Em & _ & _ & Hctx & _ & Hok & Hnd)].
    + rewrite E. cbn [fst snd]. rewrite lookup_nil. discriminate.
    + destruct (step_v m hist yv k w i c p) as [[o m1] evs].
      cbn [fst snd] in *. subst evs.
      assert (Hhere : [ev] !! j = Some (EvFitPredict x n r) ->
                exists h i0, hist = Some h /\ (i :: rest) !! j = Some i0 /\
                  x = retrain_context w h yv i0 /\ n = 1).
      { destruct j as [|j]; [|destruct j; discriminate].
        intros [= ->]. destruct (Hctx _ _ _ eq_refl) as (h & -> & -> & ->).
        exists h, i. auto. }
      destruct o as [r0|e|]; cbn [fst snd]; try exact Hhere.
      destruct j as [|j]; [exact Hhere|].
      cbn [app]. intros Hj. change ((ev :: ?l) !! S j) with (l !! j) in Hj.
      destruct (IH _ _ _ _ _ _ _ _ Hj) as (h & i0 & ? & ? & ? & ?).
      exists h, i0. auto.
Qed.

(** A call that failed ends the run with the exception it raised. *)
Lemma loop_v_failure yv k w indices : forall m hist c p (j : nat) ev e,
  (loop_v m hist yv k w indices c p).2 !! j = Some ev ->
  failure_of ev = Some e ->
  (loop_v m hist yv k w indices c p).1.1 = Raise e.
Proof.
  induction indices as [|i rest IH]; intros m hist c p j ev e; cbn [loop_v].
  - cbn [snd]. rewrite lookup_nil. discriminate.
  - destruct (step_v_cases m hist yv k w i c p)
      as [E|(ev0 & m' & Eev & Em & _ & _ & _ & Hfail & Hok & Hnd)].
    + rewrite E. cbn [fst snd]. rewrite lookup_nil. discriminate.
    + destruct (step_v m hist yv k w i c p) as [[o m1] evs].
      cbn [fst snd] in *. subst evs.
      destruct o as [r0|e0|]; cbn [fst snd].
      * destruct (Hok _ eq_refl) as (Hnone & _).
        destruct j as [|j]; cbn [app].
        { intros [= <-]. congruence. }
        intros Hj. change ((ev0 :: ?l) !! S j) with (l !! j) in Hj.
        eauto.
      * destruct j as [|j]; [|destruct j; discriminate].
        intros [= <-] Hf. specialize (Hfail _ Hf). congruence.
      * congruence.
Qed.

(** And that call is the last one logged. *)
Lemma loop_v_failure_last yv k w indices : forall m hist c p (j : nat) ev e,
  (loop_v m hist yv k w indices c p).2 !! j = Some ev ->
  failure_of ev = Some e ->
  length (loop_v m hist yv k w indices c p).2 = S j.
Proof.
  induction indices as [|i rest IH]; intros m hist c p j ev e; cbn [loop_v].
  - cbn [snd]. rewrite lookup_nil. discriminate.
  - destruct (step_v_cases m hist yv k w i c p)
      as [E|(ev0 & m' & Eev & Em & _ & _ & _ & Hfail & Hok & Hnd)].
    + rewrite E. cbn [fst snd]. rewrite lookup_nil. discriminate.
    + destruct (step_v m hist yv k w i c p) as [[o m1] evs].
      cbn [fst snd] in *. subst evs.
      destruct o as [r0|e0|]; cbn [fst snd].
      * destruct (Hok _ eq_refl) as (Hnone & _).
        destruct j as [|j]; cbn [app].
        { intros [= <-]. congruence. }
        intros Hj Hf. change ((ev0 :: ?l) !! S j) with (l !! j) in Hj.
        cbn [length]. f_equal. eapply IH; eassumption.
      * destruct j as [|j]; [|destruct j; discriminate]. reflexivity.
      * congruence.
Qed.

(** The loop never runs out of fuel: it has none. *)
Lemma loop_v_total yv k w indices : forall m hist c p,
  (loop_v m hist yv k w indices c p).1.1 <> Diverge.
Proof.
  induction indices as [|i rest IH]; intros m hist c p; cbn [loop_v].
  - discriminate.
  - destruct (step_v_cases m hist yv k w i c p)
      as [E|(ev0 & m' & _ & _ & _ & _ & _ & _ & _ & Hnd)].
    + rewrite E. discriminate.
    + destruct (step_v m hist yv k w i c p) as [[[r0|e0|] m1] evs];
        cbn [fst snd] in *; [apply IH|discriminate|congruence].
Qed.

(** Which passes refit: the counter is reset to 0 by a refit and is 1 at
    the next pass, so, counting from a counter [c] between 0 and
    [retrain_freq], the pass at position [j] refits exactly when [c + j] is
    a positive multiple of [retrain_freq]. *)
Lemma loop_v_refit_steps yv k w indices : forall m hist c p (j : nat) ev,
  1 <= k -> 0 <= c <= k ->
  (loop_v m hist yv k w indices c p).2 !! j = Some ev ->
  (is_refit ev = true <-> 0 < c + Z.of_nat j /\ (c + Z.of_nat j) mod k = 0).
Proof.
  induction indices as [|i rest IH]; intros m hist c p j ev Hk Hc; cbn [loop_v].
  - cbn [snd]. rewrite lookup_nil. discriminate.
  - destruct (step_v_cases m hist yv k w i c p)
      as [E|(ev0 & m' & Eev & Em & Hrefit & _ & _ & _ & Hok & Hnd)].
    + rewrite E. cbn [fst snd]. rewrite lookup_nil. discriminate.
    + destruct (step_v m hist yv k w i c p) as [[o m1] evs].
      cbn [fst snd] in *. subst evs.
      assert (Hhere : is_refit ev0 = true <-> 0 < c + 0 /\ (c + 0) mod k = 0).
      { rewrite Hrefit, Z.add_0_r, Z.leb_le. split.
        - intros Hkc. assert (c = k) as -> by lia.
          split; [lia|apply Z_mod_same_full].
        - intros [Hpos Hmod].
          destruct (Z.eq_dec c k) as [->|Hne]; [lia|].
          rewrite Z.mod_small in Hmod by lia. lia. }
      destruct o as [r0|e0|]; cbn [fst snd].
      * destruct (Hok _ eq_refl) as (_ & Hc' & _).
        destruct j as [|j]; cbn [app].
        { intros [= <-]. exact Hhere. }
        intros Hj. change ((ev0 :: ?l) !! S j) with (l !! j) in Hj.
        apply IH in Hj; [|lia|rewrite Hc'; destruct (k <=? c) eqn:Ek;
                              [lia|apply Z.leb_gt in Ek; lia]].
        rewrite Hj, Hc'. destruct (k <=? c) eqn:Ek.
        -- apply Z.leb_le in Ek. assert (c = k) as -> by lia.
           replace (k + Z.of_nat (S j)) with (1 + Z.of_nat j + 1 * k) by lia.
           rewrite Z_mod_plus_full. lia.
        -- replace (c + Z.of_nat (S j)) with (c + 1 + Z.of_nat j) by lia.
           reflexivity.
      * destruct j as [|j]; [|destruct j; discriminate].
        intros [= <-]. exact Hhere.
      * congruence.
Qed.

(** How many passes refit, in a run that returns. *)
Lemma loop_v_refit_count yv k w indices : forall m hist c p p',
  1 <= k -> 0 <= c <= k -> 1 <= c + Z.of_nat (length indices) ->
  (loop_v m hist yv k w indices c p).1.1 = Ok p' ->
  length (loop_v m hist yv k w indices c p).2 = length indices /\
  Z.of_nat (length (List.filter is_refit (loop_v m hist yv k w indices c p).2))
  = (c + Z.of_nat (length indices) - 1) / k.
Proof.
  induction indices as [|i rest IH]; intros m hist c p p' Hk Hc Hlen;
    cbn [loop_v].
  - cbn [fst snd length List.filter] in *. intros _. split; [reflexivity|].
    rewrite Z.div_small by lia. reflexivity.
  - destruct (step_v_cases m hist yv k w i c p)
      as [E|(ev0 & m' & Eev & Em & Hrefit & _ & _ & _ & Hok & Hnd)].
    + rewrite E. cbn [fst snd]. discriminate.
    + destruct (step_v m hist yv k w i c p) as [[o m1] evs].
      cbn [fst snd] in *. subst evs.
      destruct o as [r0|e0|]; cbn [fst snd]; try discriminate.
      destruct (Hok _ eq_refl) as (_ & Hc' & _). intros Hout.
      cbn [app length List.filter]. rewrite Hrefit.
      destruct (k <=? c) eqn:Ek.
      * apply Z.leb_le in Ek. assert (c = k) as -> by lia.
        destruct (IH m1 hist r0.1 r0.2 p') as [IHl IHc]; [lia|lia|lia|exact Hout|].
        split; [lia|]. cbn [length]. rewrite Nat2Z.inj_succ, IHc, Hc'.
        replace (k + Z.of_nat (S (length rest)) - 1)
          with (Z.of_nat (length rest) + 1 * k) by lia.
        rewrite Z.div_add by lia.
        replace (1 + Z.of_nat (length rest) - 1) with (Z.of_nat (length rest))
          by lia. lia.
      * apply Z.leb_gt in Ek.
        destruct (IH m1 hist r0.1 r0.2 p') as [IHl IHc]; [lia|lia|lia|exact Hout|].
        split; [lia|]. rewrite IHc, Hc'. f_equal. lia.
Qed.

(** With a non-positive [retrain_freq] every pass refits. *)
Lemma loop_v_nonpositive yv k w indices : forall m hist c p (j : nat) ev,
  k <= 0 -> 0 <= c ->
  (loop_v m hist yv k w indices c p).2 !! j = Some ev ->
  is_refit ev = true.
Proof.
  induction indices as [|i rest IH]; intros m hist c p j ev Hk Hc; cbn [loop_v].
  - cbn [snd]. rewrite lookup_nil. discriminate.
  - destruct (step_v_cases m hist yv k w i c p)
      as [E|(ev0 & m' & Eev & Em & Hrefit & _ & _ & _ & Hok & Hnd)].
    + rewrite E. cbn [fst snd]. rewrite lookup_nil. discriminate.
    + destruct (step_v m hist yv k w i c p) as [[o m1] evs].
      cbn [fst snd] in *. subst evs.
      assert (Hhere : is_refit ev0 = true).
      { rewrite Hrefit. apply Z.leb_le. lia. }
      destruct o as [r0|e0|]; cbn [fst snd].
      * destruct (Hok _ eq_refl) as (_ & Hc' & _).
        destruct j as [|j]; cbn [app].
        { intros [= <-]. exact Hhere. }
        intros Hj. change ((ev0 :: ?l) !! S j) with (l !! j) in Hj.
        apply IH in Hj; [exact Hj|lia|].
        rewrite Hc'. destruct (k <=? c); lia.
      * destruct j as [|j]; [|destruct j; discriminate].
        intros [= <-]. exact Hhere.
      * congruence.
Qed.

(** A run that returns has made one call in every pass, and returns a
    series over the labels of the out-of-sample series. *)
Lemma loop_v_index yv k w indices : forall m hist c p p',
  index p = index yv -> (forall i, i ∈ indices -> 0 <= i) ->
  (loop_v m hist yv k w indices c p).1.1 = Ok p' ->
  index p' = index yv.
Proof.
  induction indices as [|i rest IH]; intros m hist c p p' Hp Hpos; cbn [loop_v].
  - cbn [fst]. intros [= <-]. exact Hp.
  - destruct (step_v_cases m hist yv k w i c p)
      as [E|(ev0 & m' & Eev & Em & _ & _ & _ & _ & Hok & Hnd)].
    + rewrite E. discriminate.
    + destruct (step_v m hist yv k w i c p) as [[[r0|e0|] m1] evs];
        cbn [fst snd] in *; try discriminate.
      destruct (Hok _ eq_refl) as (_ & _ & label & v & Hlabel & Hr & _).
      apply IH; [|intros; apply Hpos; in_cons].
      rewrite Hr, loc_set_index; [exact Hp|].
      rewrite Hp. apply getitem_lookup in Hlabel; [|apply Hpos; in_cons].
      eapply list_elem_of_lookup_2, Hlabel.
Qed.

(** An entry of the prediction at a position that no later pass assigns is
    final, when the labels are distinct. *)
Lemma loop_v_untouched yv k w indices : forall m hist c p p' (q : nat),
  NoDup (index yv) -> index p = index yv ->
  (forall i, i ∈ indices -> 0 <= i /\ Z.to_nat i <> q) ->
  (loop_v m hist yv k w indices c p).1.1 = Ok p' ->
  p' !! q = p !! q.
Proof.
  induction indices as [|i rest IH]; intros m hist c p p' q Hnd Hp Hpos;
    cbn [loop_v].
  - cbn [fst]. intros [= <-]. reflexivity.
  - destruct (step_v_cases m hist yv k w i c p)
      as [E|(ev0 & m' & Eev & Em & _ & _ & _ & _ & Hok & _)].
    + rewrite E. discriminate.
    + destruct (step_v m hist yv k w i c p) as [[[r0|e0|] m1] evs];
        cbn [fst snd] in *; try discriminate.
      destruct (Hok _ eq_refl) as (_ & _ & label & v & Hlabel & Hr & _).
      destruct (Hpos i) as [Hi Hiq]; [in_cons|].
      apply getitem_lookup in Hlabel; [|exact Hi].
      assert (Hin : label ∈ index p).
      { rewrite Hp. eapply list_elem_of_lookup_2, Hlabel. }
      intros Hout. erewrite IH; [|exact Hnd| |intros; apply Hpos; in_cons|exact Hout].
      2:{ rewrite Hr, loc_set_index; assumption. }
      rewrite Hr. destruct (p !! q) as [e|] eqn:Eq.
      * rewrite (loc_set_lookup _ _ _ _ _ Hin Eq).
        destruct (e.1 =? label) eqn:El; [|reflexivity].
        apply Z.eqb_eq in El. exfalso. apply Hiq.
        eapply NoDup_lookup; [exact Hnd|exact Hlabel|].
        rewrite <- Hp. unfold index. rewrite list_lookup_fmap, Eq. simpl.
        congruence.
      * apply lookup_ge_None. apply lookup_ge_None in Eq.
        assert (length (loc_set label v p) = length p); [|lia].
        rewrite <- (length_fmap fst (loc_set label v p)), <- (length_fmap fst p).
        change (length (index (loc_set label v p)) = length (index p)).
        rewrite loc_set_index; auto.
Qed.

(** The entry at the position of a pass carries the forecast that the call
    of that pass returned. *)
Lemma loop_v_forecasts yv k w indices : forall m hist c p p' (j : nat) i,
  NoDup (index yv) -> index p = index yv -> NoDup indices ->
  (forall i, i ∈ indices -> 0 <= i) ->
  (loop_v m hist yv k w indices c p).1.1 = Ok p' ->
  indices !! j = Some i ->
  exists ev v label,
    (loop_v m hist yv k w indices c p).2 !! j = Some ev /\
    forecast_in ev = Some v /\
    index yv !! Z.to_nat i = Some label /\
    p' !! Z.to_nat i = Some (label, v).
Proof.
  induction indices as [|i0 rest IH]; intros m hist c p p' j i Hnd Hp Hni Hpos;
    cbn [loop_v].
  - rewrite lookup_nil. discriminate.
  - destruct (step_v_cases m hist yv k w i0 c p)
      as [E|(ev0 & m' & Eev & Em & _ & _ & _ & _ & Hok & _)].
    + rewrite E. discriminate.
    + destruct (step_v m hist yv k w i0 c p) as [[[r0|e0|] m1] evs];
        cbn [fst snd] in *; try discriminate.
      subst evs.
      destruct (Hok _ eq_refl) as (_ & _ & label & v & Hlabel & Hr & Hfc).
      apply NoDup_cons in Hni as [Hi0 Hni].
      apply getitem_lookup in Hlabel; [|apply Hpos; in_cons].
      assert (Hin : label ∈ index p).
      { rewrite Hp. eapply list_elem_of_lookup_2, Hlabel. }
      assert (Hp' : index r0.2 = index yv).
      { rewrite Hr, loc_set_index; assumption. }
      intros Hout. destruct j as [|j]; cbn [app].
      * intros [= <-]. exists ev0, v, label.
        split; [reflexivity|]. split; [exact Hfc|]. split; [exact Hlabel|].
        erewrite loop_v_untouched; [|exact Hnd|exact Hp'| |exact Hout].
        2:{ intros i' Hi'. split; [apply Hpos; in_cons|].
            intros Heq. apply Hi0.
            assert (0 <= i') by (apply Hpos; in_cons).
            assert (0 <= i0) by (apply Hpos; in_cons).
            assert (i0 = i') as -> by lia. exact Hi'. }
        rewrite Hr.
        assert (Hpq : exists x, p !! Z.to_nat i0 = Some (label, x)).
        { assert (Hl : index p !! Z.to_nat i0 = Some label) by (rewrite Hp; exact Hlabel).
          unfold index in Hl. rewrite list_lookup_fmap in Hl.
          destruct (p !! Z.to_nat i0) as [[t x]|]; [|discriminate].
          simpl in Hl. exists x. congruence. }
        destruct Hpq as [x Hpq].
        rewrite (loc_set_lookup _ _ _ _ _ Hin Hpq). simpl.
        rewrite Z.eqb_refl. reflexivity.
      * intros Hj.
        destruct (IH m1 hist r0.1 r0.2 p' j i Hnd Hp' Hni) as (ev & v' & l' & H1 & H2 & H3 & H4);
          [intros; apply Hpos; in_cons|exact Hout|exact Hj|].
        exists ev, v', l'. auto.
Qed.

(** A pass that does not refit asks the model as it is for a forecast. *)
Lemma loop_v_cached yv k w indices : forall m hist c p (j : nat) ev,
  (loop_v m hist yv k w indices c p).2 !! j = Some ev ->
  is_refit ev = false -> exists r, ev = EvPredict 1 r.
Proof.
  induction indices as [|i rest IH]; intros m hist c p j ev; cbn [loop_v].
  - cbn [snd]. rewrite lookup_nil. discriminate.
  - destruct (step_v_cases m hist yv k w i c p)
      as [E|(ev0 & m' & Eev & Em & _ & Hkind & _ & _ & Hok & Hnd)].
    + rewrite E. cbn [fst snd]. rewrite lookup_nil. discriminate.
    + destruct (step_v m hist yv k w i c p) as [[o m1] evs].
      cbn [fst snd] in *. subst evs.
      destruct o as [r0|e0|]; cbn [fst snd].
      * destruct j as [|j]; cbn [app].
        { intros [= <-]. exact Hkind. }
        intros Hj. change ((ev0 :: ?l) !! S j) with (l !! j) in Hj. eauto.
      * destruct j as [|j]; [|destruct j; discriminate].
        intros [= <-]. exact Hkind.
      * congruence.
Qed.

(** The loop depends on [train_window] only through the part of the
    history it selects. *)
Lemma loop_v_window yv k w1 w2 indices : forall m hist c p,
  (forall h, hist = Some h -> window w1 h = window w2 h) ->
  loop_v m hist yv k w1 indices c p = loop_v m hist yv k w2 indices c p.
Proof.
  induction indices as [|i rest IH]; intros m hist c p Hw; [reflexivity|].
  cbn [loop_v].
  assert (Es : step_v m hist yv k w1 i c p = step_v m hist yv k w2 i c p).
  { unfold step_v, refit_v, retrain_context.
    destruct m as [m0|], hist as [h|]; try reflexivity.
    rewrite (Hw h eq_refl). reflexivity. }
  rewrite Es. destruct (step_v m hist yv k w2 i c p) as [[[r|e|] m1] evs];
    cbn [fst snd]; try reflexivity.
  rewrite (IH m1 hist r.1 r.2 Hw). reflexivity.
Qed.

(** Python's slices, in the cases the loop meets. *)
Lemma iloc_from_last (w : Z) (h : Series) :
  0 < w -> iloc_from (- w) h = last_n (Z.to_nat w) h.
Proof.
  intros Hw. unfold iloc_from, last_n, slice_bound, shape0. f_equal.
  destruct (- w <? 0) eqn:E; [|apply Z.ltb_ge in E; lia]. lia.
Qed.

Lemma iloc_from_whole (w : Z) (h : Series) :
  Z.of_nat (length h) <= w -> iloc_from (- w) h = h.
Proof.
  intros Hw. unfold iloc_from, slice_bound, shape0.
  replace (Z.to_nat _) with 0%nat; [reflexivity|].
  destruct (- w <? 0) eqn:E; [lia|]. apply Z.ltb_ge in E. lia.
Qed.

Lemma iloc_from_zero (h : Series) : iloc_from (- 0) h = h.
Proof.
  unfold iloc_from, slice_bound, shape0.
  change (- 0 <? 0) with false. cbv iota.
  replace (Z.to_nat _) with 0%nat by lia. reflexivity.
Qed.

Lemma iloc_to_take (i : Z) (yv : Series) :
  1 <= i -> iloc_to (i - 1) yv = take (Z.to_nat (i - 1)) yv.
Proof.
  intros Hi. unfold iloc_to, slice_bound, shape0.
  destruct (i - 1 <? 0) eqn:E; [apply Z.ltb_lt in E; lia|].
  destruct (Z_le_gt_dec (i - 1) (Z.of_nat (length yv))).
  - f_equal. lia.
  - rewrite !take_ge by lia. reflexivity.
Qed.

(** ** [get_trend_order] and the fit read on values *)

Lemma grown_nothing st : grown st [] [] = st.
Proof. unfold grown. rewrite !app_nil_r. destruct st; reflexivity. Qed.

Lemma grown_grown st extra evs extra' evs' :
  grown (grown st extra evs) extra' evs' =
  grown st (extra ++ extra') (evs ++ evs').
Proof. unfold grown. simpl. rewrite !app_assoc. reflexivity. Qed.

Lemma grown_heap_old st extra evs l x :
  heap st !! l = Some x -> heap (grown st extra evs) !! l = Some x.
Proof. intros H. simpl. apply lookup_app_l_Some, H. Qed.

Lemma push_grown s st : push s st = grown st [s] [].
Proof. unfold push, grown. rewrite app_nil_r. reflexivity. Qed.

Lemma s_diff_ok st l s :
  heap st !! l = Some s ->
  s_diff l st = (Ok (length (heap st)), grown st [diff s] [EvDiff]).
Proof. intros H. unfold s_diff. run. reflexivity. Qed.

Lemma s_dropna_ok st l s :
  heap st !! l = Some s ->
  s_dropna l st = (Ok (length (heap st)), grown st [dropna s] []).
Proof.
  intros H. unfold s_dropna. run. unfold alloc, push, grown.
  rewrite app_nil_r. reflexivity.
Qed.

Lemma diff_dropna_times_run n : forall st l s,
  heap st !! l = Some s ->
  exists extra l',
    diff_dropna_times n l st = (Ok l', grown st extra (replicate n EvDiff)) /\
    heap (grown st extra (replicate n EvDiff)) !! l' = Some (differenced n s).
Proof.
  induction n as [|n IH]; intros st l s H.
  - exists [], l. cbn [diff_dropna_times differenced replicate].
    rewrite grown_nothing. auto.
  - cbn [diff_dropna_times differenced].
    rewrite (bind_ok _ _ _ _ _ (s_diff_ok _ _ _ H)).
    erewrite bind_ok by (apply s_dropna_ok; apply list_lookup_middle; reflexivity).
    rewrite grown_grown.
    destruct (IH (grown st ([diff s] ++ [dropna (diff s)]) ([EvDiff] ++ []))
                (length (heap (grown st [diff s] [EvDiff])))
                (dropna (diff s))) as (extra & l' & E & Hl').
    { unfold grown. cbn [heap]. rewrite app_assoc.
      apply list_lookup_middle. reflexivity. }
    rewrite grown_grown in E, Hl'.
    exists (([diff s] ++ [dropna (diff s)]) ++ extra), l'.
    split; [|exact Hl']. rewrite E. reflexivity.
Qed.

Lemma call_should_diff_run st level x s :
  heap st !! x = Some s ->
  call_should_diff level x st =
  (match ADFTest_should_diff level s with inl e => Raise e | inr r => Ok r end,
   grown st [] [EvShouldDiff level s (ADFTest_should_diff level s)]).
Proof.
  intros H. unfold call_should_diff. run. unfold bind, emit, log, grown. simpl.
  rewrite app_nil_r. destruct (ADFTest_should_diff level s); reflexivity.
Qed.

Lemma trend_order_loop_done fuel yl d order st :
  trend_order_loop fuel yl d order true st = (Ok d, st).
Proof. destruct fuel; reflexivity. Qed.

Lemma trend_order_loop_run fuel : forall st yl yv d0 order,
  heap st !! yl = Some yv ->
  exists extra,
    trend_order_loop fuel yl d0 order false st =
    ((trend_v fuel yv order).1, grown st extra (trend_v fuel yv order).2).
Proof.
  induction fuel as [|fuel IH]; intros st yl yv d0 order Hy.
  - exists []. simpl. rewrite grown_nothing. reflexivity.
  - cbn [trend_order_loop trend_v].
    rewrite (bind_ok _ _ _ _ _ (s_copy_ok _ _ _ Hy)).
    destruct (diff_dropna_times_run (Z.to_nat order) (push yv st)
                (length (heap st)) yv) as (extra & l' & E & Hl');
      [apply heap_push_new|].
    rewrite (bind_ok _ _ _ _ _ E).
    unfold bind at 1. rewrite (call_should_diff_run _ _ _ _ Hl').
    rewrite push_grown, !grown_grown. rewrite app_nil_r. cbn [app].
    destruct (ADFTest_should_diff alpha (differenced (Z.to_nat order) yv))
      as [e|[pv b]]; cbn [fst snd].
    + eexists. reflexivity.
    + destruct b; cbn [negb].
      * edestruct (IH (grown st (yv :: extra)
                     (replicate (Z.to_nat order) EvDiff ++
                      [EvShouldDiff alpha (differenced (Z.to_nat order) yv)
                         (inr (pv, true))])) yl yv d0 (order + 1))
          as [extra' E']; [apply grown_heap_old, Hy|].
        rewrite E', grown_grown. eexists. reflexivity.
      * rewrite trend_order_loop_done. eexists. reflexivity.
Qed.

Lemma trend_v_sound yv fuel : forall order d,
  0 <= order -> (trend_v fuel yv order).1 = Ok d ->
  order <= d /\ passes (differenced (Z.to_nat d) yv) /\
  forall e, order <= e < d -> needs_diff (differenced (Z.to_nat e) yv).
Proof.
  induction fuel as [|fuel IH]; intros order d Ho; cbn [trend_v].
  - discriminate.
  - destruct (ADFTest_should_diff alpha (differenced (Z.to_nat order) yv))
      as [e|[pv b]] eqn:Et; cbn [fst snd]; [discriminate|].
    destruct b; cbn [negb fst].
    + intros Hd. destruct (IH (order + 1) d ltac:(lia) Hd) as (Hle & Hp & Hn).
      split; [lia|]. split; [exact Hp|].
      intros e He. destruct (Z.eq_dec e order) as [->|Hne].
      * exists pv. exact Et.
      * apply Hn. lia.
    + intros [= <-]. split; [lia|]. split; [exists pv; exact Et|].
      intros e He. lia.
Qed.

Lemma trend_v_skip yv (n : nat) : forall fuel order,
  0 <= order ->
  (forall e, order <= e < order + Z.of_nat n ->
     needs_diff (differenced (Z.to_nat e) yv)) ->
  (trend_v (n + fuel) yv order).1 = (trend_v fuel yv (order + Z.of_nat n)).1.
Proof.
  induction n as [|n IH]; intros fuel order Ho Hn.
  - rewrite Z.add_0_r. reflexivity.
  - cbn [Nat.add trend_v].
    destruct (Hn order ltac:(lia)) as [pv Et]. rewrite Et. cbn [negb snd fst].
    rewrite IH; [f_equal; f_equal; lia|lia|].
    intros e He. apply Hn. lia.
Qed.

(** Detection does not call the order search. *)
Lemma trend_v_events yv fuel : forall order ev,
  ev ∈ (trend_v fuel yv order).2 -> is_auto_arima ev = false.
Proof.
  induction fuel as [|fuel IH]; intros order ev; cbn [trend_v].
  - cbn [snd]. intros H. apply elem_of_nil in H as [].
  - assert (Hhere : forall r,
      ev ∈ replicate (Z.to_nat order) EvDiff ++
           [EvShouldDiff alpha (differenced (Z.to_nat order) yv) r] ->
      is_auto_arima ev = false).
    { intros r [H|H]%elem_of_app.
      - apply elem_of_replicate in H as [-> _]. reflexivity.
      - apply list_elem_of_singleton in H as ->. reflexivity. }
    destruct (ADFTest_should_diff alpha (differenced (Z.to_nat order) yv))
      as [e|[pv [|]]]; cbn [fst snd negb]; try apply Hhere.
    intros [H|H]%elem_of_app; [eapply Hhere, H|eapply IH, H].
Qed.

Lemma get_best_arima_model_run fuel st yl yv verbose :
  heap st !! yl = Some yv ->
  exists extra,
    get_best_arima_model fuel yl verbose st =
    match (trend_v fuel yv 0).1 with
    | Ok d =>
        (match search (self st) yv d verbose with
         | inl e => Raise e
         | inr _ => Ok tt
         end,
         fit_state st extra (trend_v fuel yv 0).2 yv d verbose)
    | Raise e => (Raise e, grown st extra (trend_v fuel yv 0).2)
    | Diverge => (Diverge, grown st extra (trend_v fuel yv 0).2)
    end.
Proof.
  intros Hy. unfold get_best_arima_model, get_trend_order.
  destruct (trend_order_loop_run fuel st yl yv 0 0 Hy) as [extra E].
  exists extra. unfold bind at 1. rewrite E.
  destruct (trend_v fuel yv 0) as [[d|e|] evs]; cbn [fst snd]; try reflexivity.
  erewrite bind_ok by (apply s_copy_ok, grown_heap_old, Hy).
  unfold bind, set_y_train, get_self, call_auto_arima, bind, deref.
  cbn [heap assign push grown self].
  rewrite (lookup_app_l_Some _ [yv] _ _ (lookup_app_l_Some _ extra _ _ Hy)).
  unfold fit_state, search_event, search, emit, log, set_arima_model, assign.
  cbn [heap self trace with_y_train start_p start_q max_p max_q].
  destruct (auto_arima yv d _ _ _ _ _ verbose) as [e|m]; cbn [lift raise ret].
  - cbn [heap self trace push grown]. destruct (self st); reflexivity.
  - reflexivity.
Qed.

(** ** The properties of [predict] *)

Lemma history_stored st hl hist :
  y_train (self st) = Some hl -> heap st !! hl = Some hist ->
  wf st /\ history st = Some hist.
Proof.
  intros Hl Hh. unfold wf, history. rewrite Hl. split; [|exact Hh].
  eapply lookup_lt_Some, Hh.
Qed.

Lemma calls_of_run st yl yv k w :
  heap st !! yl = Some yv -> wf st ->
  calls_of st yl k w =
  (predict_v (arima_model (self st)) (history st) yv k w).2 /\
  trace (predict yl k w st).2 = trace st ++ calls_of st yl k w /\
  (predict yl k w st).1 =
  (predict_v (arima_model (self st)) (history st) yv k w).1.1.
Proof.
  intros Hy Hwf. unfold calls_of.
  destruct (predict_run st yl yv k w Hy Hwf) as [extra [E _]]. rewrite E.
  cbn [fst snd after trace]. rewrite drop_app_length. auto.
Qed.

(** One pass, at index [i]: when it refits, the counter had reached
    [retrain_freq] and the refit is given the selected part of the history
    followed by the slice [[:i - 1]] of the out-of-sample series. *)
Lemma predict_step_context st yl yv hl hist k w i c p x n r :
  heap st !! yl = Some yv ->
  y_train (self st) = Some hl -> heap st !! hl = Some hist ->
  EvFitPredict x n r ∈
    drop (length (trace st)) (trace (predict_step yl k w i c p st).2) ->
  k <= c /\ x = retrain_context w hist yv i /\ n = 1.
Proof.
  intros Hy Hl Hh Hin.
  destruct (history_stored st hl hist Hl Hh) as [Hwf Hhist].
  destruct (predict_step_run st yl yv k w i c p Hy Hwf) as [extra [E _]].
  rewrite E in Hin. cbn [snd after trace] in Hin.
  rewrite drop_app_length, Hhist in Hin.
  destruct (step_v_cases (arima_model (self st)) (Some hist) yv k w i c p)
    as [E'|(ev & m' & Eev & _ & Hrefit & _ & Hctx & _)].
  - rewrite E' in Hin. apply elem_of_nil in Hin as [].
  - rewrite Eev in Hin. apply list_elem_of_singleton in Hin as <-.
    destruct (Hctx _ _ _ eq_refl) as (h & [= <-] & -> & ->).
    split; [|auto]. apply Z.leb_le. rewrite <- Hrefit. reflexivity.
Qed.

(** [predict] has no loop without a bound: it returns or raises. *)
Lemma predict_total st yl yv k w :
  heap st !! yl = Some yv -> wf st -> (predict yl k w st).1 <> Diverge.
Proof.
  intros Hy Hwf. destruct (calls_of_run st yl yv k w Hy Hwf) as (_ & _ & Ho).
  rewrite Ho. apply loop_v_total.
Qed.

(** C1: every refit of [predict] is given the retained training history
    (all of it when [train_window] is [None], its last [w] entries when it
    is [Some w], [w] positive) followed by the out-of-sample entries at the
    positions [0], ..., [i - 2], where [i] is the index of the pass; each
    pass logs at most one call and the run stops at a pass that raises, so
    the pass at index [i] is the one whose call is logged at position
    [i - 1].  In particular, with distinct labels, neither the label at
    position [i] nor the one at [i - 1] occurs in the out-of-sample part of
    the context, nor anywhere in it when the labels of the history and of
    the out-of-sample series are distinct altogether. *)
Theorem predict_retrain_context st yl yv hl hist k w :
  heap st !! yl = Some yv ->
  y_train (self st) = Some hl -> heap st !! hl = Some hist ->
  (forall n, w = Some n -> 0 < n) ->
  forall (i : Z) x n r,
    1 <= i ->
    calls_of st yl k w !! Z.to_nat (i - 1) = Some (EvFitPredict x n r) ->
    let base := match w with
                | None => hist
                | Some n => last_n (Z.to_nat n) hist
                end in
    let oos := take (Z.to_nat (i - 1)) yv in
    x = base ++ oos /\
    i < Z.of_nat (length yv) /\
    length x = (length base + Z.to_nat (i - 1))%nat /\
    (forall n0, w = Some n0 ->
       (length x <= Z.to_nat n0 + Z.to_nat (i - 1))%nat) /\
    (forall (q : nat) e, oos !! q = Some e ->
       Z.of_nat q < i - 1 /\ yv !! q = Some e) /\
    (NoDup (index yv) ->
     forall (q : nat) e,
       Z.of_nat q = i - 1 \/ Z.of_nat q = i -> yv !! q = Some e ->
       e.1 ∉ index oos) /\
    (NoDup (index (hist ++ yv)) ->
     forall (q : nat) e,
       Z.of_nat q = i - 1 \/ Z.of_nat q = i -> yv !! q = Some e ->
       e.1 ∉ index x).
Proof.
  intros Hy Hl Hh Hw i x n r Hi Hev base oos.
  destruct (history_stored st hl hist Hl Hh) as [Hwf Hhist].
  destruct (calls_of_run st yl yv k w Hy Hwf) as [Hc _].
  rewrite Hc, Hhist in Hev. unfold predict_v in Hev.
  apply loop_v_refit_context in Hev as (h & i' & [= <-] & Hi' & -> & ->).
  apply range_lookup in Hi' as [-> Hlt].
  replace (1 + Z.of_nat (Z.to_nat (i - 1))) with i in * by lia.
  assert (Hx : retrain_context w hist yv i = base ++ oos).
  { unfold retrain_context, append, base, oos. rewrite iloc_to_take by exact Hi.
    f_equal. destruct w as [n|]; [|reflexivity].
    apply iloc_from_last, Hw. reflexivity. }
  unfold shape0 in Hlt.
  assert (Hoos : length oos = Z.to_nat (i - 1)).
  { unfold oos. rewrite length_take. lia. }
  split; [exact Hx|]. split; [exact Hlt|].
  split; [rewrite Hx, length_app, Hoos; reflexivity|].
  split.
  { intros n0 ->. rewrite Hx, length_app, Hoos. unfold base, last_n.
    rewrite length_drop. lia. }
  assert (Hfresh : NoDup (index yv) ->
            forall (q : nat) e,
              Z.of_nat q = i - 1 \/ Z.of_nat q = i -> yv !! q = Some e ->
              e.1 ∉ index oos).
  { intros Hnd q e Hpos Hq Hin.
    unfold index in Hin. apply list_elem_of_fmap in Hin as ([t v] & Ht & Hin').
    apply list_elem_of_lookup in Hin' as [q' Hq'].
    unfold oos in Hq'. apply lookup_take_Some in Hq' as [Hq' Hlt'].
    assert (q = q'); [|lia].
    eapply NoDup_lookup; [exact Hnd| |].
    + unfold index. rewrite list_lookup_fmap, Hq. reflexivity.
    + unfold index. rewrite list_lookup_fmap, Hq'. simpl. f_equal.
      symmetry. exact Ht. }
  split.
  { intros q e Hq. unfold oos in Hq. apply lookup_take_Some in Hq as [Hq Hlt'].
    split; [lia|exact Hq]. }
  split; [exact Hfresh|].
  intros Hnd q e Hpos Hq Hin.
  unfold index in Hnd. rewrite fmap_app in Hnd.
  apply NoDup_app in Hnd as (_ & Hdisj & Hndy).
  rewrite Hx in Hin. unfold index in Hin. rewrite fmap_app in Hin.
  apply elem_of_app in Hin as [Hin|Hin].
  - apply (Hdisj e.1).
    + assert (Hsub : base ⊆ hist).
      { unfold base, last_n. destruct w; [apply subseteq_drop|reflexivity]. }
      apply list_elem_of_fmap in Hin as (e' & -> & Hin).
      apply list_elem_of_fmap_2, Hsub, Hin.
    + apply list_elem_of_fmap_2. eapply list_elem_of_lookup_2, Hq.
  - exact (Hfresh Hndy q e Hpos Hq Hin).
Qed.

Lemma predict_v_window m hist yv k w1 w2 :
  (forall h, hist = Some h -> window w1 h = window w2 h) ->
  predict_v m hist yv k w1 = predict_v m hist yv k w2.
Proof. intros H. unfold predict_v. apply loop_v_window, H. Qed.

(** C10: with a [train_window] larger than the stored training history,
    [predict] does what it does with no window at all: same outcome, same
    model left behind, same calls, every refit being given the whole
    history followed by the out-of-sample entries before position
    [i - 1]; and the refits are there: with [retrain_freq = k >= 1], the
    call logged at a position that is a positive multiple of [k] is a refit
    on the whole history and that prefix. *)
Theorem predict_window_beyond_history st yl yv hl hist k n :
  heap st !! yl = Some yv ->
  y_train (self st) = Some hl -> heap st !! hl = Some hist ->
  Z.of_nat (length hist) < n ->
  (predict yl k (Some n) st).1 = (predict yl k None st).1 /\
  self (predict yl k (Some n) st).2 = self (predict yl k None st).2 /\
  calls_of st yl k (Some n) = calls_of st yl k None /\
  (forall (i : Z) x n' r,
     1 <= i ->
     calls_of st yl k (Some n) !! Z.to_nat (i - 1) =
     Some (EvFitPredict x n' r) ->
     x = hist ++ take (Z.to_nat (i - 1)) yv) /\
  (1 <= k ->
   forall (j : nat) ev,
     calls_of st yl k (Some n) !! j = Some ev ->
     0 < Z.of_nat j -> Z.of_nat j mod k = 0 ->
     exists r, ev = EvFitPredict (hist ++ take j yv) 1 r).
Proof.
  intros Hy Hl Hh Hn.
  destruct (history_stored st hl hist Hl Hh) as [Hwf Hhist].
  assert (Hv : predict_v (arima_model (self st)) (history st) yv k (Some n) =
               predict_v (arima_model (self st)) (history st) yv k None).
  { apply predict_v_window. intros h Hs. rewrite Hhist in Hs.
    injection Hs as <-. cbn [window]. apply iloc_from_whole. lia. }
  destruct (calls_of_run st yl yv k (Some n) Hy Hwf) as (Hc1 & _ & Ho1).
  destruct (calls_of_run st yl yv k None Hy Hwf) as (Hc2 & _ & Ho2).
  destruct (predict_run st yl yv k (Some n) Hy Hwf) as [extra1 [E1 _]].
  destruct (predict_run st yl yv k None Hy Hwf) as [extra2 [E2 _]].
  split; [rewrite Ho1, Ho2, Hv; reflexivity|].
  split; [rewrite E1, E2, Hv; reflexivity|].
  split; [rewrite Hc1, Hc2, Hv; reflexivity|].
  assert (Hctx : forall (i : Z) x n' r,
            1 <= i ->
            calls_of st yl k (Some n) !! Z.to_nat (i - 1) =
            Some (EvFitPredict x n' r) ->
            x = hist ++ take (Z.to_nat (i - 1)) yv /\ n' = 1).
  { intros i x n' r Hi Hev.
    rewrite Hc1, Hhist in Hev. unfold predict_v in Hev.
    apply loop_v_refit_context in Hev as (h & i' & [= <-] & Hi' & -> & ->).
    apply range_lookup in Hi' as [-> Hlt].
    replace (1 + Z.of_nat (Z.to_nat (i - 1))) with i in * by lia.
    split; [|reflexivity]. unfold retrain_context, append, window.
    rewrite iloc_to_take by exact Hi. f_equal. apply iloc_from_whole. lia. }
  split; [intros i x n' r Hi Hev; apply (Hctx i x n' r Hi Hev)|].
  intros Hk j ev Hev Hpos Hmod.
  assert (Hrefit : is_refit ev = true).
  { assert (H0 : 0 <= 0 <= k) by lia.
    rewrite Hc1 in Hev. unfold predict_v in Hev.
    apply (loop_v_refit_steps _ _ _ _ _ _ _ _ _ _ Hk H0 Hev).
    rewrite Z.add_0_l. auto. }
  destruct ev as [| | |x n' r|]; try discriminate Hrefit.
  destruct (Hctx (Z.of_nat j + 1) x n' r ltac:(lia)) as [-> ->].
  { replace (Z.to_nat (Z.of_nat j + 1 - 1)) with j by lia. exact Hev. }
  replace (Z.to_nat (Z.of_nat j + 1 - 1)) with j by lia. eauto.
Qed.

(** C6: when a refit raises, [predict] raises that exception: the outcome
    is not a series, and the failed refit is the last call of the run. *)
Theorem predict_refit_failure_fatal st yl yv k w :
  heap st !! yl = Some yv -> wf st ->
  forall (j : nat) x n e,
    calls_of st yl k w !! j = Some (EvFitPredict x n (inl e)) ->
    (predict yl k w st).1 = Raise e /\
    (forall p, (predict yl k w st).1 <> Ok p) /\
    length (calls_of st yl k w) = S j.
Proof.
  intros Hy Hwf j x n e Hev.
  destruct (calls_of_run st yl yv k w Hy Hwf) as (Hc & _ & Ho).
  rewrite Hc in Hev |- *. rewrite Ho. unfold predict_v in *.
  assert (Hr : (loop_v (arima_model (self st)) (history st) yv k w
                  (range 1 (shape0 yv)) 0 (nan_series (index yv))).1.1
               = Raise e).
  { eapply loop_v_failure; [exact Hev|reflexivity]. }
  split; [exact Hr|]. split; [rewrite Hr; discriminate|].
  eapply loop_v_failure_last; [exact Hev|reflexivity].
Qed.

Lemma range_lookup_lt a b (j : nat) :
  Z.of_nat j < b - a -> range a b !! j = Some (a + Z.of_nat j).
Proof.
  intros H. unfold range. rewrite list_lookup_fmap.
  rewrite (proj2 (lookup_seq 0 _ j j)); [reflexivity|]. split; lia.
Qed.

Lemma range_NoDup a b : NoDup (range a b).
Proof.
  unfold range. apply NoDup_fmap_2; [|apply NoDup_seq].
  intros x y H. lia.
Qed.

Lemma range_ge a b i : i ∈ range a b -> a <= i.
Proof.
  intros H. apply list_elem_of_lookup in H as [j Hj].
  apply range_lookup in Hj. lia.
Qed.

(** C2, as the code has it: with [retrain_freq = k >= 1], the passes that
    refit are those at the positions [k], [2k], [3k], ... of the iteration
    (counted from 0, so the first pass never refits, and with [k = 1] every
    pass but the first does); every other pass asks the model as it is for
    a forecast; and a run that returns over an out-of-sample series of
    [n + 1] entries has made [n] passes, [(n - 1) / k] of them refits. *)
Theorem predict_retrain_schedule st yl yv k w :
  heap st !! yl = Some yv -> wf st -> 1 <= k ->
  (forall (j : nat) ev,
     calls_of st yl k w !! j = Some ev ->
     (is_refit ev = true <-> 0 < Z.of_nat j /\ Z.of_nat j mod k = 0) /\
     (is_refit ev = false -> exists r, ev = EvPredict 1 r)) /\
  (forall p,
     (predict yl k w st).1 = Ok p -> (2 <= length yv)%nat ->
     length (calls_of st yl k w) = (length yv - 1)%nat /\
     Z.of_nat (length (List.filter is_refit (calls_of st yl k w))) =
     (Z.of_nat (length yv - 1) - 1) / k).
Proof.
  intros Hy Hwf Hk.
  destruct (calls_of_run st yl yv k w Hy Hwf) as (Hc & _ & Ho).
  rewrite Hc, Ho. unfold predict_v. split.
  - intros j ev Hev. split.
    + assert (H0 : 0 <= 0 <= k) by lia.
      rewrite (loop_v_refit_steps _ _ _ _ _ _ _ _ _ _ Hk H0 Hev).
      rewrite Z.add_0_l. reflexivity.
    + eapply loop_v_cached, Hev.
  - intros p Hp Hlen.
    assert (H0 : 0 <= 0 <= k) by lia.
    destruct (loop_v_refit_count yv k w (range 1 (shape0 yv))
                (arima_model (self st)) (history st) 0
                (nan_series (index yv)) p Hk H0) as [Hl Hn];
      [rewrite range_length; unfold shape0; lia|exact Hp|].
    rewrite Hl, Hn, range_length. unfold shape0.
    split; [lia|]. f_equal. lia.
Qed.

Lemma nan_series_index ix : index (nan_series ix) = ix.
Proof.
  unfold index, nan_series. rewrite <- list_fmap_compose.
  apply list_fmap_id.
Qed.

(** C3, as the code has it: the series [predict] returns is indexed by all
    the labels of the out-of-sample series, the first included, and so has
    its length; with distinct labels, the entry at the first label is NaN
    and the entry at every later position [i] is the forecast returned by
    the call of the pass at index [i]. *)
Theorem predict_result_index st yl yv k w p :
  heap st !! yl = Some yv -> wf st ->
  (predict yl k w st).1 = Ok p ->
  index p = index yv /\
  length p = length yv /\
  (NoDup (index yv) ->
   (forall t x, yv !! 0%nat = Some (t, x) ->
      p !! 0%nat = Some (t, PrimFloat.nan)) /\
   (forall (i : nat) t,
      (1 <= i)%nat -> index yv !! i = Some t ->
      exists ev v,
        calls_of st yl k w !! (i - 1)%nat = Some ev /\
        forecast_in ev = Some v /\
        p !! i = Some (t, v))).
Proof.
  intros Hy Hwf Hp.
  destruct (calls_of_run st yl yv k w Hy Hwf) as (Hc & _ & Ho).
  rewrite Ho in Hp. rewrite Hc. unfold predict_v in *.
  assert (Hpos : forall i, i ∈ range 1 (shape0 yv) -> 0 <= i).
  { intros i Hi. apply range_ge in Hi. lia. }
  assert (Hix : index p = index yv).
  { eapply loop_v_index; [apply nan_series_index|exact Hpos|exact Hp]. }
  split; [exact Hix|].
  split.
  { rewrite <- (length_fmap fst p), <- (length_fmap fst yv). f_equal. exact Hix. }
  intros Hnd. split.
  - intros t x H0.
    erewrite loop_v_untouched;
      [|exact Hnd|apply nan_series_index| |exact Hp].
    + unfold nan_series, index. rewrite !list_lookup_fmap, H0. reflexivity.
    + intros i Hi. apply range_ge in Hi. lia.
  - intros i t Hi Ht.
    assert (Hlt : (i < length yv)%nat).
    { apply lookup_lt_Some in Ht. unfold index in Ht.
      rewrite length_fmap in Ht. exact Ht. }
    destruct (loop_v_forecasts yv k w (range 1 (shape0 yv))
                (arima_model (self st)) (history st) 0
                (nan_series (index yv)) p (i - 1)%nat (Z.of_nat i) Hnd
                (nan_series_index _) (range_NoDup _ _) Hpos Hp)
      as (ev & v & label & Hev & Hfc & Hlabel & Hpi).
    { rewrite range_lookup_lt by (unfold shape0; lia). f_equal. lia. }
    rewrite Nat2Z.id in Hlabel, Hpi.
    exists ev, v. split; [exact Hev|]. split; [exact Hfc|].
    rewrite Hpi. congruence.
Qed.

(** C5, as the code has it: [predict] checks nothing before the loop.  On
    an out-of-sample series of fewer than 2 entries it returns the all-NaN
    series over its labels and leaves the state as it was, fitted or not;
    before a fit, on 2 entries or more, the first pass raises the
    [AttributeError] of the missing model and the state is as it was; a
    non-positive [retrain_freq] makes every pass refit; and a
    [train_window] of 0 selects the whole history. *)
Theorem predict_does_not_validate st yl yv k w :
  heap st !! yl = Some yv -> wf st ->
  ((length yv < 2)%nat ->
   predict yl k w st = (Ok (nan_series (index yv)), st)) /\
  (arima_model (self st) = None -> (2 <= length yv)%nat ->
   predict yl k w st = (Raise AttributeError, st)) /\
  (k <= 0 ->
   forall (j : nat) ev, calls_of st yl k w !! j = Some ev ->
     is_refit ev = true) /\
  (w = Some 0 ->
   (predict yl k w st).1 = (predict yl k None st).1 /\
   calls_of st yl k w = calls_of st yl k None).
Proof.
  intros Hy Hwf. split; [|split; [|split]].
  - intros Hlen. unfold predict, s_shape0. run.
    rewrite range_nil by (unfold shape0; lia). reflexivity.
  - intros Hm Hlen. unfold predict, s_shape0. run.
    rewrite range_cons by (unfold shape0; lia). cbn [predict_loop].
    apply bind_raise. unfold predict_step.
    destruct (k <=? 0); apply bind_raise;
      unfold refit_forecast, cached_forecast; run; reflexivity.
  - intros Hk j ev Hev.
    destruct (calls_of_run st yl yv k w Hy Hwf) as (Hc & _ & _).
    rewrite Hc in Hev. unfold predict_v in Hev.
    eapply loop_v_nonpositive; [exact Hk| |exact Hev]. lia.
  - intros ->.
    assert (Hv : predict_v (arima_model (self st)) (history st) yv k (Some 0) =
                 predict_v (arima_model (self st)) (history st) yv k None).
    { apply predict_v_window. intros h _. cbn [window].
      apply iloc_from_zero. }
    destruct (calls_of_run st yl yv k (Some 0) Hy Hwf) as (Hc1 & _ & Ho1).
    destruct (calls_of_run st yl yv k None Hy Hwf) as (Hc2 & _ & Ho2).
    rewrite Ho1, Ho2, Hc1, Hc2, Hv. auto.
Qed.

(** [predict] reads the stored history and writes no object that existed:
    the reference of the forecaster, the history behind it and every
    object of the heap are as before, and the series given to the refits
    are new objects. *)
Lemma predict_frame st yl yv k w :
  heap st !! yl = Some yv -> wf st ->
  y_train (self (predict yl k w st).2) = y_train (self st) /\
  history (predict yl k w st).2 = history st /\
  exists extra,
    heap (predict yl k w st).2 = heap st ++ extra /\
    contexts_in (calls_of st yl k w) extra.
Proof.
  intros Hy Hwf.
  destruct (calls_of_run st yl yv k w Hy Hwf) as (Hc & _ & _).
  destruct (predict_run st yl yv k w Hy Hwf) as [extra [E Hx]].
  rewrite Hc. rewrite E. cbn [snd].
  split; [reflexivity|]. split; [apply after_history, Hwf|].
  exists extra. split; [reflexivity|exact Hx].
Qed.

Lemma filter_none {A} (f : A -> bool) (l : list A) :
  (forall x, x ∈ l -> f x = false) -> List.filter f l = [].
Proof.
  induction l as [|a l IH]; intros H; [reflexivity|].
  cbn [List.filter]. rewrite (H a) by (apply elem_of_cons; auto).
  apply IH. intros x Hin. apply H, elem_of_cons. auto.
Qed.

Lemma get_trend_order_run fuel st yl yv :
  heap st !! yl = Some yv ->
  exists extra,
    get_trend_order fuel yl st =
    ((trend_v fuel yv 0).1, grown st extra (trend_v fuel yv 0).2).
Proof. intros Hy. apply trend_order_loop_run, Hy. Qed.

(** C8: the fit stores a copy of the training series, a new object that no
    reference held before the call can reach, so that writing to the
    caller's series (or to any other object) afterwards does not change
    it; and a [predict] that follows leaves the reference and the history
    behind it as they were, every refit being given a new object. *)
Theorem training_history_kept fuel st yl yv verbose d yl2 yv2 k w :
  heap st !! yl = Some yv -> heap st !! yl2 = Some yv2 ->
  (get_trend_order fuel yl st).1 = Ok d ->
  let st1 := (get_best_arima_model fuel yl verbose st).2 in
  let st2 := (predict yl2 k w st1).2 in
  exists l',
    y_train (self st1) = Some l' /\
    (length (heap st) <= l')%nat /\
    heap st1 !! l' = Some yv /\
    (forall l s, l <> l' -> <[l:=s]> (heap st1) !! l' = Some yv) /\
    y_train (self st2) = Some l' /\
    heap st2 !! l' = Some yv /\
    exists extra,
      heap st2 = heap st1 ++ extra /\
      contexts_in (calls_of st1 yl2 k w) extra.
Proof.
  intros Hy Hy2 Hd st1 st2.
  destruct (get_trend_order_run fuel st yl yv Hy) as [extra0 E0].
  rewrite E0 in Hd. cbn [fst] in Hd.
  destruct (get_best_arima_model_run fuel st yl yv verbose Hy) as [extra E].
  rewrite Hd in E.
  assert (Hst1 : st1 = fit_state st extra (trend_v fuel yv 0).2 yv d verbose).
  { unfold st1. rewrite E. destruct (search _ _ _ _); reflexivity. }
  set (l' := length (heap st ++ extra)).
  assert (Hl1 : y_train (self st1) = Some l') by (rewrite Hst1; reflexivity).
  assert (Hh1 : heap st1 !! l' = Some yv).
  { rewrite Hst1. cbn [heap fit_state]. apply list_lookup_middle. reflexivity. }
  assert (Hwf1 : wf st1).
  { unfold wf. rewrite Hl1. eapply lookup_lt_Some, Hh1. }
  assert (Hy21 : heap st1 !! yl2 = Some yv2).
  { rewrite Hst1. cbn [heap fit_state].
    apply lookup_app_l_Some, lookup_app_l_Some, Hy2. }
  destruct (predict_frame st1 yl2 yv2 k w Hy21 Hwf1) as (Hl2 & Hh2 & extra2 & He2 & Hx2).
  fold st2 in Hl2, Hh2, He2.
  exists l'. split; [exact Hl1|].
  split; [unfold l'; rewrite length_app; lia|].
  split; [exact Hh1|].
  split; [intros l s Hne; rewrite list_lookup_insert_ne by exact Hne; exact Hh1|].
  split; [rewrite Hl2; exact Hl1|].
  split; [rewrite He2; apply lookup_app_l_Some, Hh1|].
  exists extra2. auto.
Qed.

(** C9: once the difference order [d] is detected, the fit calls
    [auto_arima] exactly once, after the detection, on the training series,
    with [d], the configured [start_p], [start_q], [max_p], [max_q], and
    [max_p + max_q + d] as [max_order]. *)
Theorem fit_calls_order_search_once fuel st yl yv verbose d :
  heap st !! yl = Some yv ->
  (get_trend_order fuel yl st).1 = Ok d ->
  exists evs failure,
    trace (get_trend_order fuel yl st).2 = trace st ++ evs /\
    (forall ev, ev ∈ evs -> is_auto_arima ev = false) /\
    trace (get_best_arima_model fuel yl verbose st).2 =
    (trace st ++ evs) ++
    [EvAutoArima yv d (start_p (self st)) (start_q (self st))
       (max_p (self st)) (max_q (self st))
       (max_p (self st) + max_q (self st) + d) verbose failure] /\
    length (List.filter is_auto_arima
              (drop (length (trace st))
                 (trace (get_best_arima_model fuel yl verbose st).2))) = 1%nat.
Proof.
  intros Hy Hd.
  destruct (get_trend_order_run fuel st yl yv Hy) as [extra0 E0].
  rewrite E0 in Hd |- *. cbn [fst snd] in *.
  destruct (get_best_arima_model_run fuel st yl yv verbose Hy) as [extra E].
  rewrite Hd in E.
  assert (Hst1 : (get_best_arima_model fuel yl verbose st).2 =
                 fit_state st extra (trend_v fuel yv 0).2 yv d verbose).
  { rewrite E. destruct (search _ _ _ _); reflexivity. }
  rewrite Hst1. cbn [trace fit_state grown].
  assert (Hno : forall ev, ev ∈ (trend_v fuel yv 0).2 -> is_auto_arima ev = false).
  { intros ev. apply trend_v_events. }
  exists (trend_v fuel yv 0).2,
    (match search (self st) yv d verbose with inl e => Some e | inr _ => None end).
  split; [reflexivity|]. split; [exact Hno|].
  split.
  - unfold search_event.
    replace (max_q (self st) + max_p (self st) + d)
      with (max_p (self st) + max_q (self st) + d) by lia.
    reflexivity.
  - rewrite <- app_assoc, drop_app_length, List.filter_app, length_app.
    cbn [List.filter search_event is_auto_arima length].
    rewrite (filter_none _ _ Hno). reflexivity.
Qed.

(** C7: when the test raises on the series differenced [d] times, every
    lower order having been judged in need of differencing, the exception
    comes out of [get_trend_order] and out of the fit: no order is
    returned, the forecaster is as it was, and [auto_arima] is not called. *)
Theorem stationarity_failure_propagates fuel st yl yv verbose d e :
  heap st !! yl = Some yv -> 0 <= d ->
  (forall o, 0 <= o < d -> needs_diff (differenced (Z.to_nat o) yv)) ->
  ADFTest_should_diff alpha (differenced (Z.to_nat d) yv) = inl e ->
  (Z.to_nat d < fuel)%nat ->
  (get_trend_order fuel yl st).1 = Raise e /\
  (get_best_arima_model fuel yl verbose st).1 = Raise e /\
  self (get_best_arima_model fuel yl verbose st).2 = self st /\
  forall ev,
    ev ∈ drop (length (trace st))
           (trace (get_best_arima_model fuel yl verbose st).2) ->
    is_auto_arima ev = false.
Proof.
  intros Hy Hd Hn He Hfuel.
  assert (Hv : (trend_v fuel yv 0).1 = Raise e).
  { replace fuel with (Z.to_nat d + S (fuel - Z.to_nat d - 1))%nat by lia.
    rewrite trend_v_skip; [|lia|intros o Ho; apply Hn; lia].
    cbn [trend_v]. replace (0 + Z.of_nat (Z.to_nat d)) with d by lia.
    rewrite He. reflexivity. }
  destruct (get_trend_order_run fuel st yl yv Hy) as [extra0 E0].
  destruct (get_best_arima_model_run fuel st yl yv verbose Hy) as [extra E].
  rewrite Hv in E. rewrite E0, E, Hv. cbn [fst snd grown self trace].
  split; [reflexivity|]. split; [reflexivity|]. split; [reflexivity|].
  rewrite drop_app_length. intros ev. apply trend_v_events.
Qed.

(** C4: the order [get_trend_order] returns is the least one at which the
    test finds the differenced series stationary; it returns it whenever
    there is one and the fuel reaches it; and for a series the test finds
    stationary as it is, it returns 0 having logged the test of that series
    and nothing else: no [diff] was performed. *)
Theorem get_trend_order_minimal st yl yv :
  heap st !! yl = Some yv ->
  (forall fuel d,
     (get_trend_order fuel yl st).1 = Ok d ->
     0 <= d /\ passes (differenced (Z.to_nat d) yv) /\
     forall o, 0 <= o < d -> needs_diff (differenced (Z.to_nat o) yv)) /\
  (forall d fuel,
     0 <= d -> passes (differenced (Z.to_nat d) yv) ->
     (forall o, 0 <= o < d -> needs_diff (differenced (Z.to_nat o) yv)) ->
     (Z.to_nat d < fuel)%nat ->
     (get_trend_order fuel yl st).1 = Ok d) /\
  (forall fuel,
     passes yv -> (0 < fuel)%nat ->
     (get_trend_order fuel yl st).1 = Ok 0 /\
     trace (get_trend_order fuel yl st).2 =
     trace st ++ [EvShouldDiff alpha yv (ADFTest_should_diff alpha yv)] /\
     List.filter is_diff
       (drop (length (trace st)) (trace (get_trend_order fuel yl st).2)) = []).
Proof.
  intros Hy. split; [|split].
  - intros fuel d Hd.
    destruct (get_trend_order_run fuel st yl yv Hy) as [extra E].
    rewrite E in Hd. cbn [fst] in Hd.
    apply trend_v_sound in Hd; [exact Hd|lia].
  - intros d fuel Hd [pv Hp] Hn Hfuel.
    destruct (get_trend_order_run fuel st yl yv Hy) as [extra E].
    rewrite E. cbn [fst].
    replace fuel with (Z.to_nat d + S (fuel - Z.to_nat d - 1))%nat by lia.
    rewrite trend_v_skip; [|lia|intros o Ho; apply Hn; lia].
    cbn [trend_v]. replace (0 + Z.of_nat (Z.to_nat d)) with d by lia.
    rewrite Hp. reflexivity.
  - intros fuel [pv Hp] Hfuel.
    destruct (get_trend_order_run fuel st yl yv Hy) as [extra E].
    rewrite E. cbn [fst snd grown trace].
    destruct fuel as [|fuel]; [lia|]. cbn [trend_v].
    change (differenced (Z.to_nat 0) yv) with yv. rewrite Hp.
    cbn [negb snd fst Z.to_nat replicate app].
    split; [reflexivity|]. split; [reflexivity|].
    rewrite drop_app_length. reflexivity.
Qed.

(** ** Further properties of [get_trend_order] *)

Lemma diff_from_length prev s : length (diff_from prev s) = length s.
Proof.
  revert prev. induction s as [|[t x] s IH]; intros prev; [reflexivity|].
  cbn [diff_from length]. rewrite IH. reflexivity.
Qed.

(** One round of differencing loses the first entry at least. *)
Lemma dropna_diff_length s :
  (length (dropna (diff s)) <= length s - 1)%nat.
Proof.
  destruct s as [|[t x] s]; [reflexivity|].
  unfold diff, dropna. cbn [List.filter snd negb length].
  change (PrimFloat.is_nan PrimFloat.nan) with true. cbn [negb].
  etransitivity; [apply List.filter_length_le|].
  rewrite diff_from_length. lia.
Qed.

Lemma differenced_length n : forall s,
  (length (differenced n s) <= length s - n)%nat.
Proof.
  induction n as [|n IH]; intros s; cbn [differenced]; [lia|].
  etransitivity; [apply IH|]. pose proof (dropna_diff_length s). lia.
Qed.

Lemma differenced_empty n s : (length s <= n)%nat -> differenced n s = [].
Proof.
  intros H. pose proof (differenced_length n s) as Hl.
  destruct (differenced n s); [reflexivity|]. cbn [length] in Hl. lia.
Qed.

Lemma passes_not_needs s : passes s -> needs_diff s -> False.
Proof. intros [pv Hp] [pv' Hn]. rewrite Hp in Hn. discriminate. Qed.

Lemma filter_replicate_diff n :
  List.filter is_diff (replicate n EvDiff) = replicate n EvDiff /\
  List.filter is_test (replicate n EvDiff) = [].
Proof.
  induction n as [|n [IH1 IH2]]; [split; reflexivity|].
  cbn [replicate List.filter is_diff is_test]. rewrite IH1, IH2. auto.
Qed.

(** What a detection that returns has cost, counted from the order it
    started at. *)
Lemma trend_v_cost yv fuel : forall order d,
  0 <= order -> (trend_v fuel yv order).1 = Ok d ->
  Z.of_nat (length (List.filter is_test (trend_v fuel yv order).2)) =
  d - order + 1 /\
  2 * Z.of_nat (length (List.filter is_diff (trend_v fuel yv order).2)) =
  d * (d + 1) - order * (order - 1).
Proof.
  induction fuel as [|fuel IH]; intros order d Ho; cbn [trend_v].
  - discriminate.
  - destruct (filter_replicate_diff (Z.to_nat order)) as [Hd Ht].
    destruct (ADFTest_should_diff alpha (differenced (Z.to_nat order) yv))
      as [e|[pv b]] eqn:Et; cbn [fst snd]; [discriminate|].
    destruct b; cbn [negb fst snd].
    + intros Hret. destruct (IH (order + 1) d ltac:(lia) Hret) as [IHt IHd].
      rewrite !List.filter_app, !length_app, Hd, Ht, length_replicate.
      cbn [List.filter is_test is_diff length app]. lia.
    + intros [= <-].
      rewrite !List.filter_app, !length_app, Hd, Ht, length_replicate.
      cbn [List.filter is_test is_diff length app]. lia.
Qed.

Lemma trend_v_kinds yv fuel : forall order ev,
  ev ∈ (trend_v fuel yv order).2 -> is_diff ev || is_test ev = true.
Proof.
  induction fuel as [|fuel IH]; intros order ev; cbn [trend_v].
  - cbn [snd]. intros H. apply elem_of_nil in H as [].
  - assert (Hhere : forall r,
      ev ∈ replicate (Z.to_nat order) EvDiff ++
           [EvShouldDiff alpha (differenced (Z.to_nat order) yv) r] ->
      is_diff ev || is_test ev = true).
    { intros r [H|H]%elem_of_app.
      - apply elem_of_replicate in H as [-> _]. reflexivity.
      - apply list_elem_of_singleton in H as ->. reflexivity. }
    destruct (ADFTest_should_diff alpha (differenced (Z.to_nat order) yv))
      as [e|[pv [|]]]; cbn [fst snd negb]; try apply Hhere.
    intros [H|H]%elem_of_app; [eapply Hhere, H|eapply IH, H].
Qed.

Lemma trend_v_never yv fuel : forall order,
  0 <= order ->
  (forall o, order <= o -> needs_diff (differenced (Z.to_nat o) yv)) ->
  (trend_v fuel yv order).1 = Diverge.
Proof.
  induction fuel as [|fuel IH]; intros order Ho Hn; cbn [trend_v];
    [reflexivity|].
  destruct (Hn order ltac:(lia)) as [pv Et]. rewrite Et. cbn [negb snd fst].
  apply IH; [lia|]. intros o Hle. apply Hn. lia.
Qed.

(** X1: a detection that returns [d] has run the test [d + 1] times and
    [diff] [d (d + 1) / 2] times: every round starts again from a copy of
    the series and differences it [order] times. *)
Theorem get_trend_order_cost fuel st yl yv d :
  heap st !! yl = Some yv ->
  (get_trend_order fuel yl st).1 = Ok d ->
  Z.of_nat (length (List.filter is_test
      (drop (length (trace st)) (trace (get_trend_order fuel yl st).2)))) =
  d + 1 /\
  2 * Z.of_nat (length (List.filter is_diff
      (drop (length (trace st)) (trace (get_trend_order fuel yl st).2)))) =
  d * (d + 1).
Proof.
  intros Hy Hd.
  destruct (get_trend_order_run fuel st yl yv Hy) as [extra E].
  rewrite E in Hd |- *. cbn [fst snd grown trace] in *.
  rewrite drop_app_length.
  destruct (trend_v_cost yv fuel 0 d ltac:(lia) Hd) as [Ht Hdf].
  split; lia.
Qed.

(** X2: whatever its outcome, [get_trend_order] leaves the forecaster and
    every object that existed as they were, and logs nothing but its own
    differencing and tests. *)
Theorem get_trend_order_frame fuel st yl yv :
  heap st !! yl = Some yv ->
  self (get_trend_order fuel yl st).2 = self st /\
  (exists extra, heap (get_trend_order fuel yl st).2 = heap st ++ extra) /\
  (forall l s, heap st !! l = Some s ->
     heap (get_trend_order fuel yl st).2 !! l = Some s) /\
  (forall ev,
     ev ∈ drop (length (trace st)) (trace (get_trend_order fuel yl st).2) ->
     is_diff ev || is_test ev = true).
Proof.
  intros Hy. destruct (get_trend_order_run fuel st yl yv Hy) as [extra E].
  rewrite E. cbn [snd grown self heap trace].
  split; [reflexivity|]. split; [eauto|].
  split; [intros l s Hl; apply lookup_app_l_Some, Hl|].
  rewrite drop_app_length. intros ev. apply trend_v_kinds.
Qed.

(** X3: the order [get_trend_order] returns is never more than the length
    of the series: after that many rounds of [diff().dropna()] nothing is
    left, and a larger order would test the same empty series again. *)
Theorem get_trend_order_bounded fuel st yl yv d :
  heap st !! yl = Some yv ->
  (get_trend_order fuel yl st).1 = Ok d ->
  0 <= d <= Z.of_nat (length yv).
Proof.
  intros Hy Hd.
  destruct (get_trend_order_run fuel st yl yv Hy) as [extra E].
  rewrite E in Hd. cbn [fst] in Hd.
  apply trend_v_sound in Hd as (Hle & Hp & Hn); [|lia].
  split; [exact Hle|].
  destruct (Z_le_gt_dec d (Z.of_nat (length yv))) as [|Hgt]; [assumption|].
  exfalso. specialize (Hn (Z.of_nat (length yv)) ltac:(lia)).
  rewrite differenced_empty in Hp by lia.
  rewrite differenced_empty in Hn by lia.
  exact (passes_not_needs _ Hp Hn).
Qed.

(** X4: the loop has no bound of its own.  When the test asks for more
    differencing at every order below the length of the series and on the
    empty series that is left from there on, [get_trend_order] does not
    return, whatever the fuel. *)
Theorem get_trend_order_never_returns st yl yv :
  heap st !! yl = Some yv ->
  (forall o, 0 <= o < Z.of_nat (length yv) ->
     needs_diff (differenced (Z.to_nat o) yv)) ->
  needs_diff [] ->
  forall fuel, (get_trend_order fuel yl st).1 = Diverge.
Proof.
  intros Hy Hn Hempty fuel.
  destruct (get_trend_order_run fuel st yl yv Hy) as [extra E].
  rewrite E. cbn [fst]. apply trend_v_never; [lia|].
  intros o Ho. destruct (Z_lt_ge_dec o (Z.of_nat (length yv))) as [Hlt|Hge].
  - apply Hn. lia.
  - rewrite differenced_empty by lia. exact Hempty.
Qed.

(** ** Further properties of the fit *)

(** X5: a fit that returns has stored the model [auto_arima] returned for
    the detected order and a copy of the training series, a new object
    that is not the caller's nor any that existed, has kept its
    configuration, and has changed no object that existed. *)
Theorem fit_success_state fuel st yl yv verbose :
  heap st !! yl = Some yv ->
  (get_best_arima_model fuel yl verbose st).1 = Ok tt ->
  let st' := (get_best_arima_model fuel yl verbose st).2 in
  exists d m l',
    (get_trend_order fuel yl st).1 = Ok d /\
    auto_arima yv d (start_p (self st)) (start_q (self st))
      (max_p (self st)) (max_q (self st))
      (max_q (self st) + max_p (self st) + d) verbose = inr m /\
    arima_model (self st') = Some m /\
    y_train (self st') = Some l' /\
    (length (heap st) <= l')%nat /\
    l' <> yl /\
    heap st' !! l' = Some yv /\
    wf st' /\
    (start_p (self st'), start_q (self st'), max_p (self st'),
     max_q (self st')) =
    (start_p (self st), start_q (self st), max_p (self st),
     max_q (self st)) /\
    (forall l s, heap st !! l = Some s -> heap st' !! l = Some s).
Proof.
  intros Hy Hok st'.
  destruct (get_trend_order_run fuel st yl yv Hy) as [extra0 E0].
  destruct (get_best_arima_model_run fuel st yl yv verbose Hy) as [extra E].
  unfold st'. rewrite E in Hok |- *. rewrite E0. cbn [fst].
  destruct (trend_v fuel yv 0) as [[d|e|] evs]; cbn [fst snd] in *;
    try discriminate.
  unfold search in *.
  destruct (auto_arima yv d _ _ _ _ _ verbose) as [e|m] eqn:Es;
    [discriminate|].
  exists d, m, (length (heap st ++ extra)).
  unfold fit_state, search. rewrite Es.
  cbn [heap self arima_model y_train with_model with_y_train start_p start_q
       max_p max_q].
  split; [reflexivity|]. split; [reflexivity|]. split; [reflexivity|].
  split; [reflexivity|].
  split; [rewrite length_app; lia|].
  split; [apply lookup_lt_Some in Hy; rewrite length_app; lia|].
  split; [apply list_lookup_middle; reflexivity|].
  split.
  { unfold wf. cbn [heap self y_train with_model with_y_train].
    rewrite !length_app. cbn [length]. lia. }
  split; [reflexivity|].
  intros l s Hl. apply lookup_app_l_Some, lookup_app_l_Some, Hl.
Qed.

(** X6: when the order search raises, the fit raises the same exception
    half done: the training history is already replaced by a copy of the
    new series, and the model is still the one from before (none, if the
    forecaster was never fit). *)
Theorem fit_search_failure_state fuel st yl yv verbose d e :
  heap st !! yl = Some yv ->
  (get_trend_order fuel yl st).1 = Ok d ->
  auto_arima yv d (start_p (self st)) (start_q (self st))
    (max_p (self st)) (max_q (self st))
    (max_q (self st) + max_p (self st) + d) verbose = inl e ->
  let st' := (get_best_arima_model fuel yl verbose st).2 in
  (get_best_arima_model fuel yl verbose st).1 = Raise e /\
  arima_model (self st') = arima_model (self st) /\
  exists l',
    y_train (self st') = Some l' /\
    (length (heap st) <= l')%nat /\
    heap st' !! l' = Some yv.
Proof.
  intros Hy Hd Hs st'.
  destruct (get_trend_order_run fuel st yl yv Hy) as [extra0 E0].
  rewrite E0 in Hd. cbn [fst] in Hd.
  destruct (get_best_arima_model_run fuel st yl yv verbose Hy) as [extra E].
  unfold st'. rewrite E, Hd. unfold fit_state, search. rewrite Hs.
  cbn [fst snd heap self arima_model y_train with_model with_y_train].
  split; [reflexivity|]. split; [reflexivity|].
  exists (length (heap st ++ extra)).
  split; [reflexivity|]. split; [rewrite length_app; lia|].
  apply list_lookup_middle. reflexivity.
Qed.

(** ** Further properties of [predict] *)

Lemma getitem_ok {A} (i : Z) (l : list A) :
  0 <= i < Z.of_nat (length l) ->
  exists a, getitem i l = inr a /\ l !! Z.to_nat i = Some a.
Proof.
  intros Hi. unfold getitem.
  destruct (i <? 0) eqn:E; [apply Z.ltb_lt in E; lia|]. rewrite E.
  destruct (lookup_lt_is_Some_2 l (Z.to_nat i)) as [a Ha]; [lia|].
  rewrite Ha. eauto.
Qed.

Lemma getitem_range (yv : Series) i :
  i ∈ range 1 (shape0 yv) -> exists label, getitem i (index yv) = inr label.
Proof.
  intros Hin. apply list_elem_of_lookup in Hin as [j Hj].
  apply range_lookup in Hj as [-> Hlt]. unfold shape0 in Hlt.
  destruct (getitem_ok (1 + Z.of_nat j) (index yv)) as (a & Ha & _);
    [unfold index; rewrite length_fmap; lia|eauto].
Qed.

Lemma forecast_of_raise r e :
  forecast_of r = Raise e -> r = inl e \/ (r = inr [] /\ e = IndexError).
Proof.
  unfold forecast_of. destruct r as [e'|fc]; [intros [= ->]; auto|].
  destruct fc as [|v fc]; [|discriminate].
  cbn. intros [= <-]. auto.
Qed.

(** One pass of a fitted forecaster at a position the series has. *)
Lemma step_v_fitted m0 h yv k w i c p label :
  getitem i (index yv) = inr label ->
  step_v (Some m0) (Some h) yv k w i c p =
  (match forecast_of (if k <=? c
                      then (Model_fit_predict m0 (retrain_context w h yv i) 1).2
                      else (Model_predict m0 1).2) with
   | Ok v => Ok (if k <=? c then 1 else c + 1, loc_set label v p)
   | Raise e => Raise e
   | Diverge => Diverge
   end,
   Some (if k <=? c
         then (Model_fit_predict m0 (retrain_context w h yv i) 1).1
         else (Model_predict m0 1).1),
   [if k <=? c
    then EvFitPredict (retrain_context w h yv i) 1
           (Model_fit_predict m0 (retrain_context w h yv i) 1).2
    else EvPredict 1 (Model_predict m0 1).2]).
Proof.
  intros Hl. unfold step_v, refit_v, cached_v. rewrite Hl.
  destruct (k <=? c); cbn [fst snd]; reflexivity.
Qed.

(** A run of a fitted forecaster that raises has made a last call, and
    that call either raised the exception or returned no forecast. *)
Lemma loop_v_raise yv k w indices : forall m0 h c p e,
  (forall i, i ∈ indices -> exists label, getitem i (index yv) = inr label) ->
  (loop_v (Some m0) (Some h) yv k w indices c p).1.1 = Raise e ->
  exists ev,
    last (loop_v (Some m0) (Some h) yv k w indices c p).2 = Some ev /\
    (failure_of ev = Some e \/ (returned_empty ev = true /\ e = IndexError)).
Proof.
  induction indices as [|i rest IH]; intros m0 h c p e Hix; cbn [loop_v].
  - discriminate.
  - destruct (Hix i) as [label Hl]; [in_cons|].
    rewrite (step_v_fitted m0 h yv k w i c p label Hl). cbn [fst snd].
    destruct (forecast_of _) as [v|e'|] eqn:Ef; cbn [fst snd].
    + intros Hr.
      destruct (IH _ h _ _ e ltac:(intros; apply Hix; in_cons) Hr)
        as (ev & Hlast & Hev).
      exists ev. split; [|exact Hev].
      cbn [app]. rewrite last_cons, Hlast. reflexivity.
    + intros [= ->]. eexists. split; [reflexivity|].
      destruct (k <=? c); apply forecast_of_raise in Ef as [->|[-> ->]];
        cbn; auto.
    + discriminate.
Qed.

Lemma returned_empty_no_forecast ev :
  returned_empty ev = true -> forecast_in ev = None.
Proof.
  destruct ev as [| | |x n [e|[|v fc]]|n [e|[|v fc]]]; cbn;
    (discriminate || reflexivity).
Qed.

Lemma step_v_empty m hist yv k w i c p ev :
  ev ∈ (step_v m hist yv k w i c p).2 -> returned_empty ev = true ->
  (step_v m hist yv k w i c p).1.1 = Raise IndexError.
Proof.
  unfold step_v, refit_v, cached_v.
  destruct (k <=? c).
  - destruct m as [m0|], hist as [h|]; cbn [fst snd];
      try (intros H; apply elem_of_nil in H as []).
    intros ->%list_elem_of_singleton. cbn [returned_empty].
    destruct (Model_fit_predict m0 _ 1).2 as [e|[|v fc]]; try discriminate.
    reflexivity.
  - destruct m as [m0|]; cbn [fst snd];
      try (intros H; apply elem_of_nil in H as []).
    intros ->%list_elem_of_singleton. cbn [returned_empty].
    destruct (Model_predict m0 1).2 as [e|[|v fc]]; try discriminate.
    reflexivity.
Qed.

Lemma loop_v_empty yv k w indices : forall m hist c p (j : nat) ev,
  (loop_v m hist yv k w indices c p).2 !! j = Some ev ->
  returned_empty ev = true ->
  (loop_v m hist yv k w indices c p).1.1 = Raise IndexError /\
  length (loop_v m hist yv k w indices c p).2 = S j.
Proof.
  induction indices as [|i rest IH]; intros m hist c p j ev; cbn [loop_v].
  - cbn [snd]. rewrite lookup_nil. discriminate.
  - pose proof (step_v_empty m hist yv k w i c p) as Hempty.
    destruct (step_v_cases m hist yv k w i c p)
      as [E|(ev0 & m' & Eev & Em & _ & _ & _ & _ & Hok & Hnd)].
    + rewrite E. cbn [fst snd]. rewrite lookup_nil. discriminate.
    + destruct (step_v m hist yv k w i c p) as [[o m1] evs].
      cbn [fst snd] in *. subst evs.
      destruct o as [r0|e0|]; cbn [fst snd].
      * destruct (Hok _ eq_refl) as (_ & _ & label & v & _ & _ & Hfc).
        destruct j as [|j]; cbn [app].
        { intros [= <-] He. apply returned_empty_no_forecast in He.
          congruence. }
        intros Hj He. change ((ev0 :: ?l) !! S j) with (l !! j) in Hj.
        destruct (IH _ _ _ _ _ _ Hj He) as [Hr Hlen].
        split; [exact Hr|]. cbn [length]. rewrite Hlen. reflexivity.
      * destruct j as [|j]; [|destruct j; discriminate].
        intros [= <-] He. split; [|reflexivity].
        specialize (Hempty ev0 ltac:(apply list_elem_of_singleton; reflexivity) He).
        congruence.
      * congruence.
Qed.

Lemma loop_v_length yv k w indices : forall m hist c p p',
  (loop_v m hist yv k w indices c p).1.1 = Ok p' ->
  length (loop_v m hist yv k w indices c p).2 = length indices.
Proof.
  induction indices as [|i rest IH]; intros m hist c p p'; cbn [loop_v].
  - reflexivity.
  - destruct (step_v_cases m hist yv k w i c p)
      as [E|(ev0 & m' & Eev & _)].
    + rewrite E. discriminate.
    + destruct (step_v m hist yv k w i c p) as [[[r0|e0|] m1] evs];
        cbn [fst snd] in *; try discriminate.
      subst evs. intros Hr. cbn [app length]. f_equal. eapply IH, Hr.
Qed.

Lemma iloc_from_drop (w : Z) (h : Series) :
  w < 0 -> iloc_from (- w) h = drop (Z.to_nat (- w)) h.
Proof.
  intros Hw. unfold iloc_from, slice_bound, shape0.
  destruct (- w <? 0) eqn:E; [apply Z.ltb_lt in E; lia|].
  destruct (Z_le_gt_dec (- w) (Z.of_nat (length h))).
  - f_equal. lia.
  - rewrite !drop_ge by lia. reflexivity.
Qed.

(** X7: a negative [train_window] is not refused: [iloc[-w:]] then drops
    the first [-w] entries of the history, and every refit is given what
    is left of it followed by the out-of-sample entries before position
    [i - 1]. *)
Theorem predict_negative_window st yl yv hl hist k n :
  heap st !! yl = Some yv ->
  y_train (self st) = Some hl -> heap st !! hl = Some hist ->
  n < 0 ->
  forall (i : Z) x n' r,
    1 <= i ->
    calls_of st yl k (Some n) !! Z.to_nat (i - 1) = Some (EvFitPredict x n' r) ->
    x = drop (Z.to_nat (- n)) hist ++ take (Z.to_nat (i - 1)) yv.
Proof.
  intros Hy Hl Hh Hn i x n' r Hi Hev.
  destruct (history_stored st hl hist Hl Hh) as [Hwf Hhist].
  destruct (calls_of_run st yl yv k (Some n) Hy Hwf) as [Hc _].
  rewrite Hc, Hhist in Hev. unfold predict_v in Hev.
  apply loop_v_refit_context in Hev as (h & i' & [= <-] & Hi' & -> & ->).
  apply range_lookup in Hi' as [-> Hlt].
  replace (1 + Z.of_nat (Z.to_nat (i - 1))) with i in * by lia.
  unfold retrain_context, append, window.
  rewrite iloc_to_take by exact Hi. rewrite iloc_from_drop by exact Hn.
  reflexivity.
Qed.

(** X8: the window does not slide.  Whatever [train_window] is, two refits
    of one run are given the same part of the history, and the later one
    the earlier one's series followed by the out-of-sample entries that
    came in between: one more entry for every pass. *)
Theorem predict_contexts_expand st yl yv hl hist k w :
  heap st !! yl = Some yv ->
  y_train (self st) = Some hl -> heap st !! hl = Some hist ->
  forall (j j' : nat) x n r x' n' r',
    (j <= j')%nat ->
    calls_of st yl k w !! j = Some (EvFitPredict x n r) ->
    calls_of st yl k w !! j' = Some (EvFitPredict x' n' r') ->
    x `prefix_of` x' /\
    x' = x ++ drop j (take j' yv) /\
    length x' = (length x + (j' - j))%nat.
Proof.
  intros Hy Hl Hh j j' x n r x' n' r' Hjj Hev Hev'.
  destruct (history_stored st hl hist Hl Hh) as [Hwf Hhist].
  destruct (calls_of_run st yl yv k w Hy Hwf) as [Hc _].
  rewrite Hc, Hhist in Hev, Hev'. unfold predict_v in Hev, Hev'.
  apply loop_v_refit_context in Hev as (h & i & [= <-] & Hi & -> & _).
  apply loop_v_refit_context in Hev' as (h & i' & [= <-] & Hi' & -> & _).
  apply range_lookup in Hi as [-> Hlt], Hi' as [-> Hlt'].
  unfold shape0 in Hlt, Hlt'. unfold retrain_context, append.
  rewrite !iloc_to_take by lia.
  replace (Z.to_nat (1 + Z.of_nat j - 1)) with j by lia.
  replace (Z.to_nat (1 + Z.of_nat j' - 1)) with j' by lia.
  assert (Hsplit : take j' yv = take j yv ++ drop j (take j' yv)).
  { rewrite <- (take_drop j (take j' yv)) at 1. rewrite take_take.
    replace (j `min` j')%nat with j by lia. reflexivity. }
  assert (Heq : window w hist ++ take j' yv =
                (window w hist ++ take j yv) ++ drop j (take j' yv)).
  { rewrite <- app_assoc, <- Hsplit. reflexivity. }
  split; [rewrite Heq; apply prefix_app_r; reflexivity|].
  split; [exact Heq|].
  rewrite !length_app, !length_take. lia.
Qed.

(** X9: a forecast asked of the model as it is (a pass that does not
    refit) that raises ends [predict] with that exception, as a refit
    does: it is the last call, and no series is returned. *)
Theorem predict_forecast_failure_fatal st yl yv k w :
  heap st !! yl = Some yv -> wf st ->
  forall (j : nat) n e,
    calls_of st yl k w !! j = Some (EvPredict n (inl e)) ->
    (predict yl k w st).1 = Raise e /\
    length (calls_of st yl k w) = S j.
Proof.
  intros Hy Hwf j n e Hev.
  destruct (calls_of_run st yl yv k w Hy Hwf) as (Hc & _ & Ho).
  rewrite Hc in Hev |- *. rewrite Ho. unfold predict_v in *.
  split.
  - eapply loop_v_failure; [exact Hev|reflexivity].
  - eapply loop_v_failure_last; [exact Hev|reflexivity].
Qed.

(** X10: when a call of the model returns an array with no forecast in
    it, the [[0]] that follows raises: [predict] ends with [IndexError],
    that call being its last. *)
Theorem predict_empty_forecast st yl yv k w :
  heap st !! yl = Some yv -> wf st ->
  forall (j : nat) ev,
    calls_of st yl k w !! j = Some ev -> returned_empty ev = true ->
    (predict yl k w st).1 = Raise IndexError /\
    length (calls_of st yl k w) = S j.
Proof.
  intros Hy Hwf j ev Hev He.
  destruct (calls_of_run st yl yv k w Hy Hwf) as (Hc & _ & Ho).
  rewrite Hc in Hev |- *. rewrite Ho. unfold predict_v in *.
  eapply loop_v_empty; eassumption.
Qed.

(** X11: on a fitted forecaster [predict] raises nothing of its own.  If
    it raises, its last call is to blame: that call raised the exception,
    or it returned no forecast and the exception is [IndexError]. *)
Theorem predict_raises_from_model st yl yv hl hist m0 k w e :
  heap st !! yl = Some yv ->
  y_train (self st) = Some hl -> heap st !! hl = Some hist ->
  arima_model (self st) = Some m0 ->
  (predict yl k w st).1 = Raise e ->
  exists ev,
    last (calls_of st yl k w) = Some ev /\
    (failure_of ev = Some e \/ (returned_empty ev = true /\ e = IndexError)).
Proof.
  intros Hy Hl Hh Hm Hr.
  destruct (history_stored st hl hist Hl Hh) as [Hwf Hhist].
  destruct (calls_of_run st yl yv k w Hy Hwf) as (Hc & _ & Ho).
  rewrite Ho in Hr. rewrite Hc. rewrite Hm, Hhist in *. unfold predict_v in *.
  eapply loop_v_raise; [|exact Hr]. intros i. apply getitem_range.
Qed.

(** X12: a run of [predict] that returns has called the model once in
    every pass, [len(y) - 1] times in all, whatever [retrain_freq] and
    [train_window] are. *)
Theorem predict_one_call_per_pass st yl yv k w p :
  heap st !! yl = Some yv -> wf st ->
  (predict yl k w st).1 = Ok p ->
  length (calls_of st yl k w) = (length yv - 1)%nat /\
  (forall ev, ev ∈ calls_of st yl k w ->
     failure_of ev = None /\ exists v, forecast_in ev = Some v).
Proof.
  intros Hy Hwf Hp.
  destruct (calls_of_run st yl yv k w Hy Hwf) as (Hc & _ & Ho).
  rewrite Ho in Hp. rewrite Hc. unfold predict_v in *.
  split.
  - rewrite (loop_v_length _ _ _ _ _ _ _ _ _ Hp), range_length.
    unfold shape0. lia.
  - intros ev Hin. apply list_elem_of_lookup in Hin as [j Hj].
    split.
    + destruct (failure_of ev) as [e|] eqn:Ef; [|reflexivity].
      rewrite (loop_v_failure _ _ _ _ _ _ _ _ _ _ _ Hj Ef) in Hp.
      discriminate.
    + assert (Hkind : exists r, forecast_in ev = forecast_in (EvPredict 1 r) /\
                        failure_of ev = failure_of (EvPredict 1 r) /\
                        returned_empty ev = returned_empty (EvPredict 1 r)).
      { destruct (is_refit ev) eqn:Er.
        - destruct ev as [| | |x n r|]; try discriminate Er. exists r. auto.
        - destruct (loop_v_cached _ _ _ _ _ _ _ _ _ _ Hj Er) as [r ->].
          exists r. auto. }
      destruct Hkind as (r & Hfc & Hf & He). rewrite Hfc.
      destruct r as [e|[|v fc]]; cbn in *.
      * rewrite (loop_v_failure _ _ _ _ _ _ _ _ _ _ _ Hj Hf) in Hp.
        discriminate.
      * destruct (loop_v_empty _ _ _ _ _ _ _ _ _ _ Hj He) as [Hr _].
        rewrite Hr in Hp. discriminate.
      * eauto.
Qed.

Lemma index_lookup (p yv : Series) (q : nat) t :
  index p = index yv -> index yv !! q = Some t ->
  exists x, p !! q = Some (t, x).
Proof.
  intros Hp Ht. rewrite <- Hp in Ht. unfold index in Ht.
  rewrite list_lookup_fmap in Ht.
  destruct (p !! q) as [[t' x]|]; [|discriminate].
  injection Ht as ->. eauto.
Qed.

(** An entry whose label no later pass assigns is final. *)
Lemma loop_v_keeps yv k w indices : forall m hist c p p' (q : nat) t x,
  index p = index yv -> (forall i, i ∈ indices -> 0 <= i) ->
  (forall i, i ∈ indices -> index yv !! Z.to_nat i <> Some t) ->
  (loop_v m hist yv k w indices c p).1.1 = Ok p' ->
  p !! q = Some (t, x) -> p' !! q = Some (t, x).
Proof.
  induction indices as [|i rest IH]; intros m hist c p p' q t x Hp Hpos Hne;
    cbn [loop_v].
  - cbn [fst]. intros [= <-]. auto.
  - destruct (step_v_cases m hist yv k w i c p)
      as [E|(ev0 & m' & Eev & Em & _ & _ & _ & _ & Hok & _)].
    + rewrite E. discriminate.
    + destruct (step_v m hist yv k w i c p) as [[[r0|e0|] m1] evs];
        cbn [fst snd] in *; try discriminate.
      destruct (Hok _ eq_refl) as (_ & _ & label & v & Hlabel & Hr & _).
      apply getitem_lookup in Hlabel; [|apply Hpos; in_cons].
      assert (Hin : label ∈ index p).
      { rewrite Hp. eapply list_elem_of_lookup_2, Hlabel. }
      intros Hout Hq.
      eapply (IH m1 hist r0.1 r0.2 p' q t x);
        [|intros; apply Hpos; in_cons|intros; apply Hne; in_cons
         |exact Hout|].
      * rewrite Hr, loc_set_index; assumption.
      * rewrite Hr, (loc_set_lookup _ _ _ _ _ Hin Hq). cbn [fst].
        destruct (t =? label) eqn:El; [|reflexivity].
        apply Z.eqb_eq in El. subst t.
        exfalso. apply (Hne i); [in_cons|exact Hlabel].
Qed.

(** Every entry carrying the label of a pass that is the last one with
    that label holds the forecast of that pass. *)
Lemma loop_v_last_write yv k w indices : forall m hist c p p' (j : nat) i t,
  index p = index yv -> (forall i, i ∈ indices -> 0 <= i) ->
  (loop_v m hist yv k w indices c p).1.1 = Ok p' ->
  indices !! j = Some i -> index yv !! Z.to_nat i = Some t ->
  (forall (j' : nat) i', (j < j')%nat -> indices !! j' = Some i' ->
     index yv !! Z.to_nat i' <> Some t) ->
  exists ev v,
    (loop_v m hist yv k w indices c p).2 !! j = Some ev /\
    forecast_in ev = Some v /\
    forall (q : nat), index yv !! q = Some t -> p' !! q = Some (t, v).
Proof.
  induction indices as [|i0 rest IH]; intros m hist c p p' j i t Hp Hpos;
    cbn [loop_v].
  - rewrite lookup_nil. discriminate.
  - destruct (step_v_cases m hist yv k w i0 c p)
      as [E|(ev0 & m' & Eev & Em & _ & _ & _ & _ & Hok & _)].
    + rewrite E. discriminate.
    + destruct (step_v m hist yv k w i0 c p) as [[[r0|e0|] m1] evs];
        cbn [fst snd] in *; try discriminate.
      subst evs.
      destruct (Hok _ eq_refl) as (_ & _ & label & v & Hlabel & Hr & Hfc).
      apply getitem_lookup in Hlabel; [|apply Hpos; in_cons].
      assert (Hin : label ∈ index p).
      { rewrite Hp. eapply list_elem_of_lookup_2, Hlabel. }
      assert (Hp' : index r0.2 = index yv).
      { rewrite Hr, loc_set_index; assumption. }
      intros Hout. destruct j as [|j]; cbn [app].
      * intros [= <-] Ht Hlater. exists ev0, v.
        split; [reflexivity|]. split; [exact Hfc|].
        assert (label = t) as -> by congruence.
        intros q Hq. destruct (index_lookup p yv q t Hp Hq) as [x Hx].
        eapply (loop_v_keeps yv k w rest m1 hist r0.1 r0.2 p' q t v);
          [exact Hp'|intros; apply Hpos; in_cons| |exact Hout|].
        -- intros i' Hi'. apply list_elem_of_lookup in Hi' as [j' Hj'].
           apply (Hlater (S j')); [lia|exact Hj'].
        -- rewrite Hr, (loc_set_lookup _ _ _ _ _ Hin Hx). cbn [fst].
           rewrite Z.eqb_refl. reflexivity.
      * intros Hj Ht Hlater.
        destruct (IH m1 hist r0.1 r0.2 p' j i t Hp'
                    ltac:(intros; apply Hpos; in_cons) Hout Hj Ht)
          as (ev & v' & H1 & H2 & H3).
        { intros j' i' Hlt Hj'. apply (Hlater (S j')); [lia|exact Hj']. }
        exists ev, v'. auto.
Qed.

(** X13: [prediction.loc[label] = v] writes every entry that carries the
    label.  So, with labels that repeat, each entry of the series returned
    holds the forecast of the last pass whose label is its own, the first
    entry too if its label comes again; an entry is left NaN only when its
    label is found at no position from 1 on. *)
Theorem predict_last_forecast_wins st yl yv k w p :
  heap st !! yl = Some yv -> wf st ->
  (predict yl k w st).1 = Ok p ->
  (forall (q : nat) t,
     index yv !! q = Some t ->
     (forall i : nat, (1 <= i)%nat -> index yv !! i <> Some t) ->
     p !! q = Some (t, PrimFloat.nan)) /\
  (forall (i : nat) t,
     (1 <= i)%nat -> index yv !! i = Some t ->
     (forall i' : nat, (i < i')%nat -> index yv !! i' <> Some t) ->
     exists ev v,
       calls_of st yl k w !! (i - 1)%nat = Some ev /\
       forecast_in ev = Some v /\
       forall q : nat, index yv !! q = Some t -> p !! q = Some (t, v)).
Proof.
  intros Hy Hwf Hp.
  destruct (calls_of_run st yl yv k w Hy Hwf) as (Hc & _ & Ho).
  rewrite Ho in Hp. rewrite Hc. unfold predict_v in *.
  assert (Hpos : forall i, i ∈ range 1 (shape0 yv) -> 0 <= i).
  { intros i Hi. apply range_ge in Hi. lia. }
  split.
  - intros q t Ht Hnone.
    eapply loop_v_keeps; [apply nan_series_index|exact Hpos| |exact Hp|].
    + intros i Hi. apply range_ge in Hi. apply Hnone. lia.
    + unfold nan_series. rewrite list_lookup_fmap, Ht. reflexivity.
  - intros i t Hi Ht Hlater.
    assert (Hlt : (i < length yv)%nat).
    { apply lookup_lt_Some in Ht. unfold index in Ht.
      rewrite length_fmap in Ht. exact Ht. }
    destruct (loop_v_last_write yv k w (range 1 (shape0 yv))
                (arima_model (self st)) (history st) 0
                (nan_series (index yv)) p (i - 1)%nat (Z.of_nat i) t
                (nan_series_index _) Hpos Hp) as (ev & v & H1 & H2 & H3).
    + rewrite range_lookup_lt by (unfold shape0; lia). f_equal. lia.
    + rewrite Nat2Z.id. exact Ht.
    + intros j' i' Hj' Hr. apply range_lookup in Hr as [-> _].
      apply Hlater. lia.
    + exists ev, v. auto.
Qed.

Lemma step_v_model m hist yv k w i c p :
  is_Some (step_v m hist yv k w i c p).1.2 <-> is_Some m.
Proof.
  unfold step_v, refit_v, cached_v.
  destruct (k <=? c), m as [m0|], hist as [h|]; cbn [fst snd];
    split; intros H; try exact H; try (eexists; reflexivity);
    destruct H; discriminate.
Qed.

Lemma loop_v_model yv k w indices : forall m hist c p,
  is_Some (loop_v m hist yv k w indices c p).1.2 <-> is_Some m.
Proof.
  induction indices as [|i rest IH]; intros m hist c p; cbn [loop_v];
    [reflexivity|].
  pose proof (step_v_model m hist yv k w i c p) as Hs.
  destruct (step_v m hist yv k w i c p) as [[[r0|e0|] m1] evs];
    cbn [fst snd] in *; try exact Hs.
  rewrite IH. exact Hs.
Qed.

(** X14: the model is all that [predict] changes.  Whatever its outcome,
    the configuration and the reference to the training history are as
    they were, a forecaster that had a model has one and one that had none
    has none, and every object that existed, the out-of-sample series
    among them, is unchanged. *)
Theorem predict_changes_only_model st yl yv k w :
  heap st !! yl = Some yv -> wf st ->
  let st' := (predict yl k w st).2 in
  (start_p (self st'), start_q (self st'), max_p (self st'),
   max_q (self st'), y_train (self st')) =
  (start_p (self st), start_q (self st), max_p (self st),
   max_q (self st), y_train (self st)) /\
  (is_Some (arima_model (self st')) <-> is_Some (arima_model (self st))) /\
  (exists extra, heap st' = heap st ++ extra) /\
  (forall l s, heap st !! l = Some s -> heap st' !! l = Some s).
Proof.
  intros Hy Hwf st'. unfold st'.
  destruct (predict_run st yl yv k w Hy Hwf) as [extra [E _]].
  rewrite E. cbn [snd after self heap with_model start_p start_q max_p max_q
                  y_train arima_model].
  split; [reflexivity|].
  split; [unfold predict_v; apply loop_v_model|].
  split; [eauto|].
  intros l s Hl. apply lookup_app_l_Some, Hl.
Qed.

Lemma step_v_agree m hist yv yv' k w i c p (n : nat) :
  index yv = index yv' -> take n yv = take n yv' ->
  1 <= i <= Z.of_nat n + 1 ->
  step_v m hist yv k w i c p = step_v m hist yv' k w i c p.
Proof.
  intros Hix Htake Hi.
  assert (Hpre : iloc_to (i - 1) yv = iloc_to (i - 1) yv').
  { rewrite !iloc_to_take by lia.
    replace (Z.to_nat (i - 1)) with (Z.to_nat (i - 1) `min` n)%nat by lia.
    rewrite <- !take_take, Htake. reflexivity. }
  unfold step_v, refit_v, retrain_context. rewrite Hix, Hpre. reflexivity.
Qed.

(** Two out-of-sample series with the same labels and the same first [n]
    entries: the runs log the same calls as long as the passes stay within
    the indices up to [n + 1]. *)
Lemma loop_v_agree yv yv' k w (n : nat) indices : forall m hist c p (j : nat),
  index yv = index yv' -> take n yv = take n yv' ->
  (forall (j' : nat) i, (j' <= j)%nat -> indices !! j' = Some i ->
     1 <= i <= Z.of_nat n + 1) ->
  (loop_v m hist yv k w indices c p).2 !! j =
  (loop_v m hist yv' k w indices c p).2 !! j.
Proof.
  induction indices as [|i rest IH]; intros m hist c p j Hix Htake Hb;
    [reflexivity|]. cbn [loop_v].
  rewrite <- (step_v_agree m hist yv yv' k w i c p n Hix Htake
                (Hb 0%nat i ltac:(lia) eq_refl)).
  destruct (step_v_cases m hist yv k w i c p)
    as [E|(ev0 & m' & Eev & _)].
  - rewrite E. reflexivity.
  - destruct (step_v m hist yv k w i c p) as [[[r0|e0|] m1] evs];
      cbn [fst snd] in *; try reflexivity.
    subst evs. destruct j as [|j]; [reflexivity|]. cbn [app].
    change ((ev0 :: ?l) !! S j) with (l !! j).
    apply IH; [exact Hix|exact Htake|].
    intros j' i' Hj' Hl. apply (Hb (S j')); [lia|exact Hl].
Qed.

(** X15: no look-ahead, as a fact about two runs.  Let two out-of-sample
    series have the same labels and agree on their first [n] entries.
    Then [predict] makes the same calls, with the same series and the same
    answers, in all the passes up to index [n + 1], and, with distinct
    labels, returns the same entries up to position [n + 1]: the forecast
    at index [i] does not depend on the values at [i - 1] and beyond. *)
Theorem predict_no_look_ahead st yl yl' yv yv' k w (n : nat) :
  heap st !! yl = Some yv -> heap st !! yl' = Some yv' -> wf st ->
  index yv = index yv' -> take n yv = take n yv' ->
  (forall j : nat, (j <= n)%nat ->
     calls_of st yl k w !! j = calls_of st yl' k w !! j) /\
  (forall p p',
     (predict yl k w st).1 = Ok p -> (predict yl' k w st).1 = Ok p' ->
     NoDup (index yv) ->
     forall q : nat, (q <= n + 1)%nat -> p !! q = p' !! q).
Proof.
  intros Hy Hy' Hwf Hix Htake.
  destruct (calls_of_run st yl yv k w Hy Hwf) as (Hc & _ & Ho).
  destruct (calls_of_run st yl' yv' k w Hy' Hwf) as (Hc' & _ & Ho').
  rewrite Hc, Hc', Ho, Ho'. unfold predict_v.
  assert (Hlen : shape0 yv = shape0 yv').
  { unfold shape0. rewrite <- (length_fmap fst yv), <- (length_fmap fst yv').
    f_equal. f_equal. exact Hix. }
  rewrite <- Hlen, <- Hix.
  assert (Hcalls : forall j : nat, (j <= n)%nat ->
    (loop_v (arima_model (self st)) (history st) yv k w
       (range 1 (shape0 yv)) 0 (nan_series (index yv))).2 !! j =
    (loop_v (arima_model (self st)) (history st) yv' k w
       (range 1 (shape0 yv)) 0 (nan_series (index yv))).2 !! j).
  { intros j Hj. apply (loop_v_agree yv yv' k w n); [exact Hix|exact Htake|].
    intros j' i Hj' Hl. apply range_lookup in Hl as [-> _]. lia. }
  split; [exact Hcalls|].
  intros p p' Hp Hp' Hnd q Hq.
  assert (Hpos : forall i, i ∈ range 1 (shape0 yv) -> 0 <= i).
  { intros i Hi. apply range_ge in Hi. lia. }
  assert (Hnd' : NoDup (index yv')) by (rewrite <- Hix; exact Hnd).
  assert (Hpos' : forall i, i ∈ range 1 (shape0 yv') -> 0 <= i).
  { intros i Hi. apply range_ge in Hi. lia. }
  rewrite Hlen, Hix in Hp'.
  destruct q as [|q].
  - assert (H0 : p !! 0%nat = nan_series (index yv) !! 0%nat).
    { eapply (loop_v_untouched yv);
        [exact Hnd|apply nan_series_index| |exact Hp].
      intros i Hi. apply range_ge in Hi. lia. }
    assert (H0' : p' !! 0%nat = nan_series (index yv') !! 0%nat).
    { eapply (loop_v_untouched yv');
        [exact Hnd'|apply nan_series_index| |exact Hp'].
      intros i Hi. apply range_ge in Hi. lia. }
    rewrite H0, H0', Hix. reflexivity.
  - destruct (index yv !! S q) as [t|] eqn:Ht.
    + assert (Hlt : (S q < length yv)%nat).
      { apply lookup_lt_Some in Ht. unfold index in Ht.
        rewrite length_fmap in Ht. exact Ht. }
      destruct (loop_v_forecasts yv k w (range 1 (shape0 yv))
                  (arima_model (self st)) (history st) 0
                  (nan_series (index yv)) p q (Z.of_nat (S q)) Hnd
                  (nan_series_index _) (range_NoDup _ _) Hpos Hp)
        as (ev & v & label & Hev & Hfc & Hlabel & Hpi).
      { rewrite range_lookup_lt by (unfold shape0; lia). f_equal. lia. }
      destruct (loop_v_forecasts yv' k w (range 1 (shape0 yv'))
                  (arima_model (self st)) (history st) 0
                  (nan_series (index yv')) p' q (Z.of_nat (S q)) Hnd'
                  (nan_series_index _) (range_NoDup _ _) Hpos' Hp')
        as (ev' & v' & label' & Hev' & Hfc' & Hlabel' & Hpi').
      { rewrite <- Hlen. rewrite range_lookup_lt by (unfold shape0; lia).
        f_equal. lia. }
      rewrite Nat2Z.id in *. rewrite Hpi, Hpi'.
      rewrite <- Hix in Hlabel'. rewrite <- Hlen, <- Hix in Hev'.
      rewrite Hcalls in Hev by lia.
      congruence.
    + assert (Hge : (length yv <= S q)%nat).
      { apply lookup_ge_None in Ht. unfold index in Ht.
        rewrite length_fmap in Ht. exact Ht. }
      assert (Hl : length p = length yv).
      { rewrite <- (length_fmap fst p), <- (length_fmap fst yv). f_equal.
        eapply loop_v_index; [apply nan_series_index|exact Hpos|exact Hp]. }
      assert (Hl' : length p' = length yv).
      { rewrite <- (length_fmap fst p'), <- (length_fmap fst yv).
        f_equal. change (index p' = index yv). rewrite Hix.
        eapply loop_v_index; [apply nan_series_index|exact Hpos'|exact Hp']. }
      rewrite !(proj2 (lookup_ge_None _ _)) by lia. reflexivity.
Qed.

End Forecast.

Arguments heap {Model}.
Arguments self {Model}.
Arguments trace {Model}.
Arguments y_train {Model}.
Arguments arima_model {Model}.
Arguments world {Model}.
Arguments init {Model}.
Arguments history {Model}.
Arguments wf {Model}.
Arguments get_trend_order {Model}.
Arguments get_best_arima_model {Model}.
Arguments predict {Model}.
Arguments calls_of {Model}.
Arguments start_p {Model}.
Arguments start_q {Model}.
Arguments max_p {Model}.
Arguments max_q {Model}.

(** ** The statements at work on the instance *)

Local Abbreviation toy_world :=
  (world [Toy.training; Toy.out_of_sample] (init (Model:=Toy.Model) 0 0 5 5)).
Local Abbreviation toy_fit :=
  (get_best_arima_model Toy.should_diff Toy.auto_arima).
Local Abbreviation toy_fitted := ((toy_fit 10%nat 0%nat false toy_world).2).
Local Abbreviation toy_predict limit :=
  (predict (Toy.fit_predict limit) Toy.predict).
Local Abbreviation toy_calls limit :=
  (calls_of (Toy.fit_predict limit) Toy.predict).

(** The fit on the instance: two differences are needed, the copy of the
    training series is the object 11, the model remembers 10. *)
Example toy_fitted_forecaster :
  self toy_fitted =
  {| start_p := 0; start_q := 0; max_p := 5; max_q := 5;
     arima_model := Some 10%float; y_train := Some 11%nat |}.
Proof. vm_compute. reflexivity. Qed.

Lemma predict_retrain_context_witness :
  toy_calls 100 toy_fitted 1%nat 1 (Some 2) !! 2%nat =
  Some (EvFitPredict
          [(3, 6%float); (4, 10%float); (5, 15%float); (6, 21%float)] 1
          (inr [21%float])) /\
  [(3, 6%float); (4, 10%float); (5, 15%float); (6, 21%float)] =
  last_n 2 Toy.training ++ take 2 Toy.out_of_sample.
Proof.
  assert (Hev : toy_calls 100 toy_fitted 1%nat 1 (Some 2) !! Z.to_nat (3 - 1) =
    Some (EvFitPredict
            [(3, 6%float); (4, 10%float); (5, 15%float); (6, 21%float)] 1
            (inr [21%float]))) by (vm_compute; reflexivity).
  split; [exact Hev|].
  refine (proj1 (predict_retrain_context _ _ _ toy_fitted 1%nat
                   Toy.out_of_sample 11%nat Toy.training 1 (Some 2)
                   _ _ _ _ 3 _ _ _ _ Hev)).
  - vm_compute. reflexivity.
  - vm_compute. reflexivity.
  - vm_compute. reflexivity.
  - intros n [= <-]. lia.
  - lia.
Defined.

Lemma predict_window_beyond_history_witness :
  Z.of_nat (length Toy.training) < 10 /\
  toy_calls 100 toy_fitted 1%nat 1 (Some 10) !! 2%nat =
  Some (EvFitPredict
          [(0, 0%float); (1, 1%float); (2, 3%float); (3, 6%float);
           (4, 10%float); (5, 15%float); (6, 21%float)] 1
          (inr [21%float])) /\
  [(0, 0%float); (1, 1%float); (2, 3%float); (3, 6%float);
   (4, 10%float); (5, 15%float); (6, 21%float)] =
  Toy.training ++ take 2 Toy.out_of_sample /\
  (exists r,
     toy_calls 100 toy_fitted 1%nat 1 (Some 10) !! 1%nat =
     Some (EvFitPredict (Toy.training ++ take 1 Toy.out_of_sample) 1 r)) /\
  (toy_predict 100 1%nat 1 (Some 10) toy_fitted).1 =
  (toy_predict 100 1%nat 1 None toy_fitted).1.
Proof.
  assert (Hev : toy_calls 100 toy_fitted 1%nat 1 (Some 10) !!
                  Z.to_nat (3 - 1) =
    Some (EvFitPredict
            [(0, 0%float); (1, 1%float); (2, 3%float); (3, 6%float);
             (4, 10%float); (5, 15%float); (6, 21%float)] 1
            (inr [21%float]))) by (vm_compute; reflexivity).
  destruct (predict_window_beyond_history _ (Toy.fit_predict 100) Toy.predict
              toy_fitted 1%nat Toy.out_of_sample 11%nat Toy.training 1 10)
    as (Hout & _ & _ & Hctx & Hthere).
  - vm_compute. reflexivity.
  - vm_compute. reflexivity.
  - vm_compute. reflexivity.
  - vm_compute. reflexivity.
  - split; [vm_compute; reflexivity|].
    split; [exact Hev|].
    split; [exact (Hctx 3 _ _ _ ltac:(lia) Hev)|].
    split; [|exact Hout].
    destruct (toy_calls 100 toy_fitted 1%nat 1 (Some 10) !! 1%nat)
      as [ev|] eqn:E1; [|vm_compute in E1; discriminate E1].
    destruct (Hthere ltac:(lia) 1%nat ev E1 ltac:(lia) ltac:(reflexivity))
      as [r ->].
    exists r. reflexivity.
Defined.

Lemma predict_refit_failure_fatal_witness :
  toy_calls 7 toy_fitted 1%nat 1 None !! 2%nat =
  Some (EvFitPredict (Toy.training ++ take 2 Toy.out_of_sample) 1
          (inl (LibraryError 3))) /\
  (toy_predict 7 1%nat 1 None toy_fitted).1 = Raise (LibraryError 3).
Proof.
  assert (Hev : toy_calls 7 toy_fitted 1%nat 1 None !! 2%nat =
    Some (EvFitPredict (Toy.training ++ take 2 Toy.out_of_sample) 1
            (inl (LibraryError 3)))) by (vm_compute; reflexivity).
  split; [exact Hev|].
  refine (proj1 (predict_refit_failure_fatal _ _ _ toy_fitted 1%nat
                   Toy.out_of_sample 1 None _ _ 2%nat _ _ _ Hev)).
  - vm_compute. reflexivity.
  - vm_compute. lia.
Defined.

Lemma predict_retrain_schedule_witness :
  (toy_predict 100 1%nat 2 None toy_fitted).1 =
  Ok [(5, PrimFloat.nan); (6, 10%float); (7, 10%float); (8, 21%float)] /\
  Z.of_nat (length (List.filter is_refit
                      (toy_calls 100 toy_fitted 1%nat 2 None))) =
  (Z.of_nat (length Toy.out_of_sample - 1) - 1) / 2.
Proof.
  assert (Hp : (toy_predict 100 1%nat 2 None toy_fitted).1 =
    Ok [(5, PrimFloat.nan); (6, 10%float); (7, 10%float); (8, 21%float)])
    by (vm_compute; reflexivity).
  split; [exact Hp|].
  refine (proj2 (proj2 (predict_retrain_schedule _ _ _ toy_fitted 1%nat
                          Toy.out_of_sample 2 None _ _ _) _ Hp _)).
  - vm_compute. reflexivity.
  - vm_compute. lia.
  - lia.
  - vm_compute. lia.
Defined.

Lemma predict_result_index_witness :
  (toy_predict 100 1%nat 1 None toy_fitted).1 =
  Ok [(5, PrimFloat.nan); (6, 10%float); (7, 15%float); (8, 21%float)] /\
  index [(5, PrimFloat.nan); (6, 10%float); (7, 15%float); (8, 21%float)] =
  index Toy.out_of_sample.
Proof.
  assert (Hp : (toy_predict 100 1%nat 1 None toy_fitted).1 =
    Ok [(5, PrimFloat.nan); (6, 10%float); (7, 15%float); (8, 21%float)])
    by (vm_compute; reflexivity).
  split; [exact Hp|].
  refine (proj1 (predict_result_index _ _ _ toy_fitted 1%nat
                   Toy.out_of_sample 1 None _ _ _ Hp)).
  - vm_compute. reflexivity.
  - vm_compute. lia.
Defined.

Lemma predict_does_not_validate_witness :
  arima_model (self toy_world) = None /\
  (2 <= length Toy.out_of_sample)%nat /\
  toy_predict 100 1%nat 1 None toy_world = (Raise AttributeError, toy_world).
Proof.
  split; [reflexivity|]. split; [vm_compute; lia|].
  refine (proj1 (proj2 (predict_does_not_validate _ _ _ toy_world 1%nat
                          Toy.out_of_sample 1 None _ _)) _ _).
  - reflexivity.
  - exact I.
  - reflexivity.
  - vm_compute. lia.
Defined.

Lemma training_history_kept_witness :
  exists l',
    y_train (self toy_fitted) = Some l' /\
    heap (toy_predict 100 1%nat 1 None toy_fitted).2 !! l' = Some Toy.training.
Proof.
  destruct (training_history_kept _ Toy.should_diff Toy.auto_arima
              (Toy.fit_predict 100) Toy.predict 10%nat toy_world 0%nat
              Toy.training false 2 1%nat Toy.out_of_sample 1 None)
    as (l' & Hl & _ & _ & _ & _ & Hh & _).
  - reflexivity.
  - reflexivity.
  - vm_compute. reflexivity.
  - exists l'. split; [exact Hl|exact Hh].
Defined.

Lemma fit_calls_order_search_once_witness :
  (get_trend_order Toy.should_diff 10%nat 0%nat toy_world).1 = Ok 2 /\
  length (List.filter is_auto_arima
            (drop (length (trace toy_world)) (trace toy_fitted))) = 1%nat.
Proof.
  assert (Hd : (get_trend_order Toy.should_diff 10%nat 0%nat toy_world).1 = Ok 2)
    by (vm_compute; reflexivity).
  split; [exact Hd|].
  destruct (fit_calls_order_search_once _ Toy.should_diff Toy.auto_arima
              10%nat toy_world 0%nat Toy.training false 2 eq_refl Hd)
    as (evs & failure & _ & _ & _ & Hone).
  exact Hone.
Defined.

Lemma stationarity_failure_propagates_witness :
  Toy.should_diff alpha (differenced 1 Toy.short_training) =
  inl (LibraryError 1) /\
  (get_best_arima_model Toy.should_diff Toy.auto_arima 10%nat 0%nat false
     (world [Toy.short_training] (init 0 0 5 5))).1 = Raise (LibraryError 1).
Proof.
  split; [vm_compute; reflexivity|].
  refine (proj1 (proj2 (stationarity_failure_propagates _ Toy.should_diff
                          Toy.auto_arima 10%nat
                          (world [Toy.short_training] (init 0 0 5 5)) 0%nat
                          Toy.short_training false 1 (LibraryError 1)
                          _ _ _ _ _))).
  - reflexivity.
  - lia.
  - intros o Ho. assert (o = 0) as -> by lia.
    exists alpha. vm_compute. reflexivity.
  - vm_compute. reflexivity.
  - vm_compute. lia.
Defined.

Lemma get_trend_order_minimal_witness :
  heap toy_world !! 0%nat = Some Toy.training /\
  (get_trend_order Toy.should_diff 10%nat 0%nat toy_world).1 = Ok 2 /\
  passes Toy.should_diff (differenced 2 Toy.training) /\
  needs_diff Toy.should_diff (differenced 1 Toy.training).
Proof.
  assert (Hy : heap toy_world !! 0%nat = Some Toy.training) by reflexivity.
  assert (Hd : (get_trend_order Toy.should_diff 10%nat 0%nat toy_world).1 = Ok 2)
    by (vm_compute; reflexivity).
  destruct (proj1 (get_trend_order_minimal _ Toy.should_diff toy_world 0%nat
                     Toy.training Hy) 10%nat 2 Hd) as (_ & Hp & Hn).
  split; [exact Hy|]. split; [exact Hd|]. split; [exact Hp|].
  apply (Hn 1). lia.
Defined.

(** C2, as the spec has it, fails on the instance: over an out-of-sample
    series of 4 entries (3 passes), with [retrain_freq = 1] the first pass
    asks the fitted model for a forecast and only 2 passes refit, not 3;
    with [retrain_freq = 2] one pass refits, the last, not the
    [ceil (3 / 2) = 2] at the positions 0 and 2; and over 10 entries with
    [retrain_freq = 5] the only refit is that of the pass at index 6. *)
Lemma retrain_schedule_counterexample :
  (toy_predict 100 1%nat 1 None toy_fitted).1 =
  Ok [(5, PrimFloat.nan); (6, 10%float); (7, 15%float); (8, 21%float)] /\
  toy_calls 100 toy_fitted 1%nat 1 None !! 0%nat =
  Some (EvPredict 1 (inr [10%float])) /\
  length (List.filter is_refit (toy_calls 100 toy_fitted 1%nat 1 None)) <>
  3%nat /\
  (toy_predict 100 1%nat 2 None toy_fitted).1 =
  Ok [(5, PrimFloat.nan); (6, 10%float); (7, 10%float); (8, 21%float)] /\
  List.map is_refit (toy_calls 100 toy_fitted 1%nat 2 None) =
  [false; false; true] /\
  length (List.filter is_refit (toy_calls 100 toy_fitted 1%nat 2 None)) <>
  Z.to_nat ((3 + 2 - 1) / 2) /\
  List.map is_refit
    (calls_of (Toy.fit_predict 100) Toy.predict
       (toy_fit 10%nat 0%nat false
          (world [Toy.training; Toy.ten_points] (init 0 0 5 5))).2
       1%nat 5 None) =
  [false; false; false; false; false; true; false; false; false].
Proof.
  repeat split; try (vm_compute; reflexivity); vm_compute; discriminate.
Qed.

(** C3, as the spec has it, fails on the instance: the series returned for
    4 out-of-sample entries has 4 entries, not 3, and the first label, 5,
    has one, a NaN. *)
Lemma predict_result_counterexample :
  exists p,
    (toy_predict 100 1%nat 1 None toy_fitted).1 = Ok p /\
    length p <> (length Toy.out_of_sample - 1)%nat /\
    index p <> index (drop 1 Toy.out_of_sample) /\
    p !! 0%nat = Some (5, PrimFloat.nan).
Proof.
  exists [(5, PrimFloat.nan); (6, 10%float); (7, 15%float); (8, 21%float)].
  repeat split; try (vm_compute; reflexivity); vm_compute; discriminate.
Qed.

(** C5, as the spec has it, fails on the instance: a [retrain_freq] of 0, a
    [train_window] of 0 or of -3, and an out-of-sample series of a single
    entry given to a forecaster that was never fit are all accepted, and
    [predict] returns a series. *)
Lemma predict_validation_counterexample :
  (toy_predict 100 1%nat 0 None toy_fitted).1 =
  Ok [(5, PrimFloat.nan); (6, 10%float); (7, 15%float); (8, 21%float)] /\
  (toy_predict 100 1%nat 1 (Some 0) toy_fitted).1 =
  Ok [(5, PrimFloat.nan); (6, 10%float); (7, 15%float); (8, 21%float)] /\
  (toy_predict 100 1%nat 1 (Some (-3)) toy_fitted).1 =
  Ok [(5, PrimFloat.nan); (6, 10%float); (7, 15%float); (8, 21%float)] /\
  toy_predict 100 0%nat 1 None (world [[(5, 15%float)]] (init 0 0 5 5)) =
  (Ok [(5, PrimFloat.nan)], world [[(5, 15%float)]] (init 0 0 5 5)).
Proof.
  repeat split; vm_compute; reflexivity.
Qed.

(** ** The further properties at work on the instance *)

Local Abbreviation toy_world4 :=
  (world [Toy.training; Toy.out_of_sample; Toy.other_tail;
          Toy.repeated_label] (init (Model:=Toy.Model) 0 0 5 5)).
Local Abbreviation toy_fitted4 := ((toy_fit 10%nat 0%nat false toy_world4).2).

Lemma get_trend_order_cost_witness :
  Z.of_nat (length (List.filter is_test
      (drop (length (trace toy_world))
         (trace (get_trend_order Toy.should_diff 10%nat 0%nat toy_world).2))))
  = 2 + 1 /\
  2 * Z.of_nat (length (List.filter is_diff
      (drop (length (trace toy_world))
         (trace (get_trend_order Toy.should_diff 10%nat 0%nat toy_world).2))))
  = 2 * (2 + 1).
Proof.
  apply (get_trend_order_cost _ Toy.should_diff 10%nat toy_world 0%nat
           Toy.training 2).
  - reflexivity.
  - vm_compute. reflexivity.
Defined.

Lemma get_trend_order_frame_witness :
  self (get_trend_order Toy.should_diff 10%nat 0%nat toy_world).2 =
  self toy_world.
Proof.
  refine (proj1 (get_trend_order_frame _ Toy.should_diff 10%nat toy_world
                   0%nat Toy.training _)).
  reflexivity.
Defined.

Lemma get_trend_order_bounded_witness :
  (get_trend_order Toy.should_diff 10%nat 0%nat toy_world).1 = Ok 2 /\
  0 <= 2 <= Z.of_nat (length Toy.training).
Proof.
  assert (Hd : (get_trend_order Toy.should_diff 10%nat 0%nat toy_world).1 = Ok 2)
    by (vm_compute; reflexivity).
  split; [exact Hd|].
  exact (get_trend_order_bounded _ Toy.should_diff 10%nat toy_world 0%nat
           Toy.training 2 eq_refl Hd).
Defined.

Lemma get_trend_order_never_returns_witness :
  (get_trend_order (fun level _ => inr (level, true)) 50%nat 0%nat
     toy_world).1 = Diverge.
Proof.
  refine (get_trend_order_never_returns _ (fun level _ => inr (level, true))
            toy_world 0%nat Toy.training _ _ _ 50%nat).
  - reflexivity.
  - intros o Ho. exists alpha. reflexivity.
  - exists alpha. reflexivity.
Defined.

Lemma fit_success_state_witness :
  (toy_fit 10%nat 0%nat false toy_world).1 = Ok tt /\
  exists l',
    y_train (self toy_fitted) = Some l' /\
    (length (heap toy_world) <= l')%nat /\
    l' <> 0%nat /\
    heap toy_fitted !! l' = Some Toy.training.
Proof.
  assert (Hok : (toy_fit 10%nat 0%nat false toy_world).1 = Ok tt)
    by (vm_compute; reflexivity).
  split; [exact Hok|].
  destruct (fit_success_state _ Toy.should_diff Toy.auto_arima 10%nat
              toy_world 0%nat Toy.training false eq_refl Hok)
    as (d & m & l' & _ & _ & _ & Hl & Hfresh & Hne & Hh & _).
  exists l'. auto.
Defined.

Lemma fit_search_failure_state_witness :
  (toy_fit 10%nat 0%nat false
     (world [Toy.training] (init 0 0 (-1) (-1)))).1 = Raise (LibraryError 2) /\
  arima_model
    (self (toy_fit 10%nat 0%nat false
             (world [Toy.training] (init 0 0 (-1) (-1)))).2) = None.
Proof.
  destruct (fit_search_failure_state _ Toy.should_diff Toy.auto_arima 10%nat
              (world [Toy.training] (init 0 0 (-1) (-1))) 0%nat Toy.training
              false 2 (LibraryError 2)) as (Hr & Hm & _).
  - reflexivity.
  - vm_compute. reflexivity.
  - vm_compute. reflexivity.
  - split; [exact Hr|exact Hm].
Defined.

Lemma predict_negative_window_witness :
  toy_calls 100 toy_fitted 1%nat 1 (Some (-3)) !! 2%nat =
  Some (EvFitPredict
          [(3, 6%float); (4, 10%float); (5, 15%float); (6, 21%float)] 1
          (inr [21%float])) /\
  [(3, 6%float); (4, 10%float); (5, 15%float); (6, 21%float)] =
  drop 3 Toy.training ++ take 2 Toy.out_of_sample.
Proof.
  assert (Hev : toy_calls 100 toy_fitted 1%nat 1 (Some (-3)) !!
                  Z.to_nat (3 - 1) =
    Some (EvFitPredict
            [(3, 6%float); (4, 10%float); (5, 15%float); (6, 21%float)] 1
            (inr [21%float]))) by (vm_compute; reflexivity).
  split; [exact Hev|].
  refine (predict_negative_window _ (Toy.fit_predict 100) Toy.predict toy_fitted 1%nat Toy.out_of_sample
            11%nat Toy.training 1 (-3) _ _ _ _ 3 _ _ _ _ Hev).
  - vm_compute. reflexivity.
  - vm_compute. reflexivity.
  - vm_compute. reflexivity.
  - lia.
  - lia.
Defined.

Lemma predict_contexts_expand_witness :
  (Toy.training ++ take 1 Toy.out_of_sample) `prefix_of`
  (Toy.training ++ take 2 Toy.out_of_sample).
Proof.
  refine (proj1 (predict_contexts_expand _ (Toy.fit_predict 100) Toy.predict toy_fitted 1%nat
                   Toy.out_of_sample 11%nat Toy.training 1 None _ _ _
                   1%nat 2%nat _ 1 (inr [15%float]) _ 1 (inr [21%float])
                   _ _ _)).
  - vm_compute. reflexivity.
  - vm_compute. reflexivity.
  - vm_compute. reflexivity.
  - lia.
  - vm_compute. reflexivity.
  - vm_compute. reflexivity.
Defined.

Lemma predict_forecast_failure_fatal_witness :
  (predict (Toy.fit_predict 100) (fun m _ => (m, inl (LibraryError 4)))
     1%nat 1 None toy_fitted).1 = Raise (LibraryError 4).
Proof.
  refine (proj1 (predict_forecast_failure_fatal _ (Toy.fit_predict 100)
                   (fun m _ => (m, inl (LibraryError 4))) toy_fitted 1%nat
                   Toy.out_of_sample 1 None _ _ 0%nat 1 (LibraryError 4) _)).
  - vm_compute. reflexivity.
  - vm_compute. lia.
  - vm_compute. reflexivity.
Defined.

Lemma predict_empty_forecast_witness :
  (predict (Toy.fit_predict 100) (fun m _ => (m, inr [])) 1%nat 2 None
     toy_fitted).1 = Raise IndexError.
Proof.
  refine (proj1 (predict_empty_forecast _ (Toy.fit_predict 100)
                   (fun m _ => (m, inr [])) toy_fitted 1%nat
                   Toy.out_of_sample 2 None _ _ 0%nat (EvPredict 1 (inr []))
                   _ _)).
  - vm_compute. reflexivity.
  - vm_compute. lia.
  - vm_compute. reflexivity.
  - reflexivity.
Defined.

Lemma predict_raises_from_model_witness :
  (toy_predict 7 1%nat 1 None toy_fitted).1 = Raise (LibraryError 3) /\
  exists ev,
    last (toy_calls 7 toy_fitted 1%nat 1 None) = Some ev /\
    (failure_of ev = Some (LibraryError 3) \/
     (returned_empty ev = true /\ LibraryError 3 = IndexError)).
Proof.
  assert (Hr : (toy_predict 7 1%nat 1 None toy_fitted).1 =
               Raise (LibraryError 3)) by (vm_compute; reflexivity).
  split; [exact Hr|].
  refine (predict_raises_from_model _ (Toy.fit_predict 7) Toy.predict toy_fitted 1%nat Toy.out_of_sample
            11%nat Toy.training 10%float 1 None (LibraryError 3) _ _ _ _ Hr).
  - vm_compute. reflexivity.
  - vm_compute. reflexivity.
  - vm_compute. reflexivity.
  - vm_compute. reflexivity.
Defined.

Lemma predict_one_call_per_pass_witness :
  length (toy_calls 100 toy_fitted 1%nat 1 None) =
  (length Toy.out_of_sample - 1)%nat.
Proof.
  refine (proj1 (predict_one_call_per_pass _ (Toy.fit_predict 100) Toy.predict toy_fitted 1%nat
                   Toy.out_of_sample 1 None
                   [(5, PrimFloat.nan); (6, 10%float); (7, 15%float);
                    (8, 21%float)] _ _ _)).
  - vm_compute. reflexivity.
  - vm_compute. lia.
  - vm_compute. reflexivity.
Defined.

Lemma predict_last_forecast_wins_witness :
  (toy_predict 100 3%nat 1 None toy_fitted4).1 =
  Ok [(5, 15%float); (6, 10%float); (5, 15%float)] /\
  exists v,
    [(5, 15%float); (6, 10%float); (5, 15%float)] !! 0%nat = Some (5, v) /\
    [(5, 15%float); (6, 10%float); (5, 15%float)] !! 2%nat = Some (5, v).
Proof.
  assert (Hp : (toy_predict 100 3%nat 1 None toy_fitted4).1 =
               Ok [(5, 15%float); (6, 10%float); (5, 15%float)])
    by (vm_compute; reflexivity).
  split; [exact Hp|].
  destruct (proj2 (predict_last_forecast_wins _ (Toy.fit_predict 100) Toy.predict toy_fitted4 3%nat
                     Toy.repeated_label 1 None _ eq_refl
                     ltac:(vm_compute; lia) Hp) 2%nat 5)
    as (ev & v & _ & _ & Hall).
  - lia.
  - reflexivity.
  - intros i' Hi'. destruct i' as [|[|[|i']]]; try lia. discriminate.
  - exists v. split; apply Hall; reflexivity.
Defined.

Lemma predict_changes_only_model_witness :
  y_train (self (toy_predict 100 1%nat 1 None toy_fitted).2) =
  y_train (self toy_fitted) /\
  heap (toy_predict 100 1%nat 1 None toy_fitted).2 !! 1%nat =
  Some Toy.out_of_sample.
Proof.
  destruct (predict_changes_only_model _ (Toy.fit_predict 100) Toy.predict
              toy_fitted 1%nat Toy.out_of_sample 1 None)
    as (Hcfg & _ & _ & Hold).
  - vm_compute. reflexivity.
  - vm_compute. lia.
  - split.
    + exact (f_equal snd Hcfg).
    + apply Hold. vm_compute. reflexivity.
Defined.

Lemma predict_no_look_ahead_witness :
  take 2 Toy.out_of_sample = take 2 Toy.other_tail /\
  forall j : nat, (j <= 2)%nat ->
    toy_calls 100 toy_fitted4 1%nat 1 None !! j =
    toy_calls 100 toy_fitted4 2%nat 1 None !! j.
Proof.
  split; [reflexivity|].
  refine (proj1 (predict_no_look_ahead _ (Toy.fit_predict 100) Toy.predict toy_fitted4 1%nat 2%nat
                   Toy.out_of_sample Toy.other_tail 1 None 2%nat
                   _ _ _ _ _)).
  - vm_compute. reflexivity.
  - vm_compute. reflexivity.
  - vm_compute. lia.
  - reflexivity.
  - reflexivity.
Defined.
